(** * hydro.delta: SCD merges, bootstrap, deduplication and table detail

    A shallow embedding of [hydro/delta.py].  The functions of that module
    are compositions of Spark DataFrame operators and Delta Lake table
    commands; each operator used by the source is given its relational
    meaning on lists of rows, and each function of the module is the same
    composition of those operators as in the source. *)

From Stdlib Require Import ZArith.
From stdpp Require Import gmap strings list sorting pretty.

Open Scope string_scope.
Open Scope list_scope.
Open Scope Z_scope.

(** ** Rows and cells

    A cell is an integer or SQL NULL.  A row maps column names to
    integers; a column that holds NULL has no binding, so reading a
    column gives [None] exactly when SQL would give NULL.  With this
    reading [unionByName(..., allowMissingColumns=True)], which fills the
    columns a side lacks with NULL, is concatenation of the row lists. *)

Abbreviation Cell := (option Z).
Abbreviation Row := (gmap string Z).
Abbreviation DataFrame := (list Row).

Module Spark.

(** [F.col(c)] evaluated on a row. *)
Definition col (c : string) (r : Row) : Cell := r !! c.

(** [df.withColumn(c, v)] on one row: the column is replaced. *)
Definition withColumn (c : string) (v : Cell) (r : Row) : Row :=
  match v with
  | Some z => <[c := z]> r
  | None => delete c r
  end.

(** [F.col(c).isNull()]. *)
Definition isNull (c : string) (r : Row) : bool :=
  match col c r with None => true | Some _ => false end.

(** SQL equality [a = b] used as a join or merge predicate: a comparison
    with NULL is not true. *)
Definition sql_eq (a b : Cell) : bool :=
  match a, b with
  | Some x, Some y => bool_decide (x = y)
  | _, _ => false
  end.

(** [source.k = target.k AND ...] over the listed columns. *)
Definition on_columns (cols : list string) (s t : Row) : bool :=
  forallb (λ k, sql_eq (col k s) (col k t)) cols.

(** [df.join(other, keys, 'left_semi')]. *)
Definition left_semi_join (keys : list string) (df other : DataFrame) : DataFrame :=
  filter (λ r, existsb (λ s, on_columns keys r s) other = true) df.

(** [df.unionByName(other, allowMissingColumns=True)]. *)
Definition unionByName (df other : DataFrame) : DataFrame := df ++ other.

(** The grouping key of a row: [partitionBy], [distinct] and
    [drop_duplicates] put NULLs of a column in one group. *)
Definition key_of (keys : list string) (r : Row) : list Cell :=
  (λ k, col k r) <$> keys.

(** [Window.partitionBy(keys)]: the partitions of a data frame. *)
Definition partitionBy (keys : list string) (df : DataFrame) : list DataFrame :=
  (λ k, filter (λ r, key_of keys r = k) df) <$> remove_dups (key_of keys <$> df).

(** Ascending order on cells, NULLS FIRST (Spark's default for [asc]). *)
Definition cell_le (a b : Cell) : Prop :=
  match a, b with
  | None, _ => True
  | Some _, None => False
  | Some x, Some y => x ≤ y
  end.

Definition cell_lt (a b : Cell) : Prop :=
  match a, b with
  | _, None => False
  | None, Some _ => True
  | Some x, Some y => x < y
  end.

#[global] Instance cell_le_dec : RelDecision cell_le.
Proof. intros [x|] [y|]; simpl; apply _. Defined.

#[global] Instance cell_lt_dec : RelDecision cell_lt.
Proof. intros [x|] [y|]; simpl; apply _. Defined.

(** [orderBy(c)]: ascending on one column. *)
Definition asc (c : string) (r1 r2 : Row) : Prop := cell_le (col c r1) (col c r2).

(** [orderBy(F.col(c).desc())]: descending, NULLS LAST. *)
Definition desc (c : string) (r1 r2 : Row) : Prop := cell_le (col c r2) (col c r1).

(** [orderBy([F.col(c).desc() for c in cols])]: descending on the columns
    in the order given, an earlier column deciding before a later one. *)
Fixpoint desc_by (cols : list string) (r1 r2 : Row) : Prop :=
  match cols with
  | [] => True
  | c :: cs =>
      cell_lt (col c r2) (col c r1) ∨ (col c r1 = col c r2 ∧ desc_by cs r1 r2)
  end.

#[global] Instance asc_dec c : RelDecision (asc c).
Proof. intros r1 r2. unfold asc. apply _. Defined.

#[global] Instance desc_dec c : RelDecision (desc c).
Proof. intros r1 r2. unfold desc. apply _. Defined.

#[global] Instance desc_by_dec cols : RelDecision (desc_by cols).
Proof. intros r1 r2. induction cols as [|c cs IH]; simpl; apply _. Defined.

(** The rows of one partition in window order.  Spark leaves the order of
    rows that compare equal open; the sort used here keeps them in input
    order, which is one of the orders Spark may produce.  What is stated
    of a result that depends on this order is stated for batches without
    such ties, and for every order Spark may produce. *)
Definition ordered (R : relation Row) `{!RelDecision R} (part : DataFrame) : DataFrame :=
  merge_sort R part.

(** [withColumn(target, F.lead(c).over(window))] on an ordered partition:
    every row gets the value of [c] in the row after it, NULL for the
    last row. *)
Fixpoint lead_over (c target : string) (part : DataFrame) : DataFrame :=
  match part with
  | [] => []
  | r :: rest =>
      withColumn target (head rest ≫= col c) r :: lead_over c target rest
  end.

(** [withColumn(n, F.row_number().over(window)).filter(F.col(n) == 1).drop(n)]
    on an ordered partition. *)
Definition first_row (part : DataFrame) : DataFrame := take 1 part.

(** [withColumn(n, F.count('*').over(window)).filter(F.col(n) > 1).drop(n)]
    on one partition. *)
Definition more_than_one (part : DataFrame) : DataFrame :=
  if bool_decide (1 < length part)%nat then part else [].

(** [df.select(keys).distinct()]. *)
Definition select_distinct (keys : list string) (df : DataFrame) : DataFrame :=
  remove_dups ((λ r, filter (λ kv, kv.1 ∈ keys) r) <$> df).

(** [df.drop_duplicates(keys)]: one row of every group is kept. *)
Definition drop_duplicates (keys : list string) (df : DataFrame) : DataFrame :=
  partitionBy keys df ≫= first_row.

End Spark.

Import Spark.

(** A window specification applied to a data frame: the partitions of
    [partitionBy(keys)], each in the order [R], each transformed by the
    window function [f]. *)
Definition over (keys : list string) (R : relation Row) `{!RelDecision R}
    (f : DataFrame → DataFrame) (df : DataFrame) : DataFrame :=
  partitionBy keys df ≫= (λ part, f (ordered R part)).

(** A window without [orderBy]: the partitions only. *)
Definition over_partition (keys : list string)
    (f : DataFrame → DataFrame) (df : DataFrame) : DataFrame :=
  partitionBy keys df ≫= f.

(** ** Python values *)

Inductive PyValue :=
  | PyNone
  | PyInt (n : Z)
  | PyStr (s : string)
  | PyList (l : list string)
  | PyDict (d : list (string * string)).

#[global] Instance PyValue_eq_dec : EqDecision PyValue.
Proof. solve_decision. Defined.

(** An optional string argument as a condition sees it ([if not end_ts],
    [if path]): [None] and the empty string are false, and count as not
    provided. *)
Definition provided (s : option string) : option string :=
  match s with
  | Some s => if bool_decide (s = "") then None else Some s
  | None => None
  end.

(** ** The table store

    Delta tables live at locations; the catalog resolves table names to
    locations.  The store is the test double of the Delta engine: it
    records every call made to it, and it answers the next commit of a
    merge with a concurrent-modification conflict when its schedule says
    so. *)

Module Delta.

Inductive error :=
  | ValueError (msg : string)
  | KeyError (key : string)
  | AnalysisException (msg : string)
  | MultipleSourceRowsMatched
  | ConcurrentModification.

Inductive Result (A : Type) :=
  | Ok (a : A)
  | Raise (e : error).
Arguments Ok {A} a.
Arguments Raise {A} e.

(** A [DeltaTable] object, as [DeltaTable.forPath] and
    [DeltaTable.forName] return it. *)
Inductive DeltaTable :=
  | forPath (path : string)
  | forName (name : string).

(** What [DESCRIBE DETAIL] reports about a table besides its location. *)
Record TableInfo := {
  createdAt : Z;
  description : option string;
  format : string;
  id : string;
  lastModified : Z;
  minReaderVersion : Z;
  minWriterVersion : Z;
  name : option string;
  numFiles : Z;
  partitionColumns : list string;
  properties : list (string * string);
  sizeInBytes : Z
}.

Record Table := {
  rows : DataFrame;
  info : TableInfo
}.

Inductive write_mode := ErrorIfExists | Append.

Inductive clause :=
  | whenMatchedUpdateAll
  | whenNotMatchedInsertAll
  | whenMatchedDelete.

#[global] Instance clause_eq_dec : EqDecision clause.
Proof. solve_decision. Defined.

(** The calls the store records. *)
Inductive call :=
  | call_toDF (t : DeltaTable)
  | call_detail (t : DeltaTable)
  | call_merge (t : DeltaTable) (clauses : list clause)
  | call_createOrReplace (location name : option string)
  | call_saveAsTable (name : string)
  | call_save (path : string) (mode : write_mode)
  | call_load (path : string).

Record Store := {
  tables : gmap string Table;
  catalog : gmap string string;
  (** what the engine reports for a table it has just created: its
      timestamps, id, protocol versions and file statistics *)
  engine_info : TableInfo;
  (** outcome of the coming merge commits: [true] is a conflict *)
  conflicts : list bool;
  calls : list call
}.

Definition M (A : Type) : Type := Store → Result A * Store.

#[global] Instance M_ret : MRet M := λ A a w, (Ok a, w).
#[global] Instance M_bind : MBind M := λ A B f m w,
  match m w with
  | (Ok a, w') => f a w'
  | (Raise e, w') => (Raise e, w')
  end.

Definition raise {A} (e : error) : M A := λ w, (Raise e, w).
Definition get : M Store := λ w, (Ok w, w).
Definition put (w : Store) : M unit := λ _, (Ok tt, w).

Definition record (c : call) : M unit := λ w,
  (Ok tt, {| tables := tables w; catalog := catalog w;
             engine_info := engine_info w; conflicts := conflicts w;
             calls := calls w ++ [c] |}).

Definition set_tables (f : gmap string Table → gmap string Table) : M unit := λ w,
  (Ok tt, {| tables := f (tables w); catalog := catalog w;
             engine_info := engine_info w; conflicts := conflicts w;
             calls := calls w |}).

Definition set_catalog (f : gmap string string → gmap string string) : M unit := λ w,
  (Ok tt, {| tables := tables w; catalog := f (catalog w);
             engine_info := engine_info w; conflicts := conflicts w;
             calls := calls w |}).

(** The outcome of the coming commit, taken off the schedule. *)
Definition next_commit_conflicts : M bool := λ w,
  (Ok (default false (head (conflicts w))),
   {| tables := tables w; catalog := catalog w;
      engine_info := engine_info w; conflicts := tail (conflicts w);
      calls := calls w |}).

(** The location a [DeltaTable] object refers to. *)
Definition location_of (t : DeltaTable) : M string :=
  match t with
  | forPath p => mret p
  | forName n =>
      w ← get;
      match catalog w !! n with
      | Some p => mret p
      | None => raise (AnalysisException "table not found")
      end
  end.

Definition table_at (loc : string) : M Table :=
  w ← get;
  match tables w !! loc with
  | Some t => mret t
  | None => raise (AnalysisException "not a Delta table")
  end.

(** [delta_table.toDF()]. *)
Definition toDF (t : DeltaTable) : M DataFrame :=
  record (call_toDF t);;
  loc ← location_of t;
  tbl ← table_at loc;
  mret (rows tbl).

(** [delta_table.detail().collect()[0].asDict()]: the location and the
    rest of the description. *)
Definition detail_row (t : DeltaTable) : M (string * TableInfo) :=
  record (call_detail t);;
  loc ← location_of t;
  tbl ← table_at loc;
  mret (loc, info tbl).

(** *** Merge *)

(** The source rows that satisfy the merge condition with a target row. *)
Definition hits (cond : list string) (source : DataFrame) (t : Row) : DataFrame :=
  filter (λ s, on_columns cond s t = true) source.

(** The first [whenMatched...] clause of a merge. *)
Definition matched_clause (clauses : list clause) : option clause :=
  head (filter (λ c, c ≠ whenNotMatchedInsertAll) clauses).

(** A target row that more than one source row would update. *)
Definition ambiguous (cond : list string) (source target : DataFrame) : bool :=
  existsb (λ t, bool_decide (1 < length (hits cond source t))%nat) target.

(** What becomes of one target row. *)
Definition merge_target_row (clauses : list clause) (cond : list string)
    (source : DataFrame) (t : Row) : DataFrame :=
  match matched_clause clauses, hits cond source t with
  | Some whenMatchedUpdateAll, s :: _ => [s]
  | Some whenMatchedDelete, _ :: _ => []
  | _, _ => [t]
  end.

(** The source rows that match no target row. *)
Definition not_matched (cond : list string) (source target : DataFrame) : DataFrame :=
  filter (λ s, existsb (λ t, on_columns cond s t) target = false) source.

Definition merge_rows (clauses : list clause) (cond : list string)
    (source target : DataFrame) : DataFrame :=
  (target ≫= merge_target_row clauses cond source) ++
  (if bool_decide (whenNotMatchedInsertAll ∈ clauses)
   then not_matched cond source target else []).

Definition with_rows (tbl : Table) (df : DataFrame) : Table :=
  {| rows := df; info := info tbl |}.

(** [delta_table.alias('target').merge(source.alias('source'), cond)
    . clauses . execute()], where [cond] is the conjunction of
    [source.k = target.k] over the columns [cond].  The conjunction of no
    columns is the empty string, which is not an expression.  An update
    of one target row by several source rows is refused.  The commit is
    refused when a concurrent writer got in first. *)
Definition merge (t : DeltaTable) (source : DataFrame) (cond : list string)
    (clauses : list clause) : M unit :=
  record (call_merge t clauses);;
  if bool_decide (cond = []) then raise (AnalysisException "empty merge condition")
  else
    loc ← location_of t;
    tbl ← table_at loc;
    if bool_decide (whenMatchedUpdateAll ∈ clauses) && ambiguous cond source (rows tbl)
    then raise MultipleSourceRowsMatched
    else
      conflict ← next_commit_conflicts;
      if (conflict : bool) then raise ConcurrentModification
      else set_tables <[loc := with_rows tbl (merge_rows clauses cond source (rows tbl))]>.

(** *** Writes and reads by path or name *)

(** [df.write.format('delta').mode(mode).save(path)]. *)
Definition save (path : string) (mode : write_mode) (df : DataFrame) : M unit :=
  record (call_save path mode);;
  w ← get;
  match tables w !! path, mode with
  | Some _, ErrorIfExists => raise (AnalysisException "path already exists")
  | Some tbl, Append => set_tables <[path := with_rows tbl (rows tbl ++ df)]>
  | None, _ => set_tables <[path := {| rows := df; info := engine_info w |}]>
  end.

(** [spark.read.format('delta').load(path)]. *)
Definition load (path : string) : M DataFrame :=
  record (call_load path);;
  tbl ← table_at path;
  mret (rows tbl).

(** Where a table created by name alone is stored. *)
Definition managed_location (name : string) : string := "spark-warehouse/" +:+ name.

(** [df.write.format('delta').option('mergeSchema', 'true').mode('append')
    .saveAsTable(name)]. *)
Definition saveAsTable (name : string) (df : DataFrame) : M unit :=
  record (call_saveAsTable name);;
  w ← get;
  let loc := default (managed_location name) (catalog w !! name) in
  match tables w !! loc with
  | Some tbl => set_tables <[loc := with_rows tbl (rows tbl ++ df)]>
  | None =>
      set_tables <[loc := {| rows := df; info := engine_info w |}]>;;
      set_catalog <[name := loc]>
  end.

(** [DeltaTable.createOrReplace(spark) ... .execute()] with the settings
    the builder was given. *)
Definition createOrReplace (table_properties : list (string * string))
    (partition_columns : list string) (comment location table_name : option string)
    : M unit :=
  record (call_createOrReplace location table_name);;
  w ← get;
  let e := engine_info w in
  let new_table :=
    {| rows := [];
       info := {| createdAt := createdAt e; description := comment;
                  format := format e; id := id e;
                  lastModified := lastModified e;
                  minReaderVersion := minReaderVersion e;
                  minWriterVersion := minWriterVersion e;
                  name := table_name; numFiles := numFiles e;
                  partitionColumns := partition_columns;
                  properties := table_properties;
                  sizeInBytes := sizeInBytes e |} |} in
  match location, table_name with
  | Some p, Some n => set_tables <[p := new_table]>;; set_catalog <[n := p]>
  | Some p, None => set_tables <[p := new_table]>
  | None, Some n =>
      let p := default (managed_location n) (catalog w !! n) in
      set_tables <[p := new_table]>;; set_catalog <[n := p]>
  | None, None => raise (AnalysisException "table name or location required")
  end.

End Delta.

Import Delta.

(** ** hydro *)

(** [hydro._humanize_number] and [hydro._humanize_bytes] are imported
    from the package's [__init__] module; they turn a number into a
    human-oriented string.  The development is parametric in them. *)
Class Humanize := {
  _humanize_number : Z → string;
  _humanize_bytes : Z → string
}.

(** *** [class DetailOutput]

    An instance is its attribute dictionary ([self.__dict__]). *)
Module DetailOutput.

Definition py_opt (s : option string) : PyValue :=
  match s with Some s => PyStr s | None => PyNone end.

(** [DetailOutput.__init__], from the row [delta_table.detail()] returns. *)
Definition init (detail_output : string * TableInfo) : gmap string PyValue :=
  let (location, d) := detail_output in
  <["size" := PyInt (sizeInBytes d)]>
  (<["properties" := PyDict (properties d)]>
  (<["partition_columns" := PyList (partitionColumns d)]>
  (<["num_files" := PyInt (numFiles d)]>
  (<["name" := py_opt (name d)]>
  (<["min_writer_version" := PyInt (minWriterVersion d)]>
  (<["min_reader_version" := PyInt (minReaderVersion d)]>
  (<["location" := PyStr location]>
  (<["last_modified" := PyInt (lastModified d)]>
  (<["id" := PyStr (id d)]>
  (<["format" := PyStr (format d)]>
  (<["description" := py_opt (description d)]>
  (<["created_at" := PyInt (createdAt d)]> ∅)))))))))))).

(** A humanizing helper applied to an attribute that holds a number. *)
Definition humanized (f : Z → string) (v : PyValue) : PyValue :=
  match v with
  | PyInt n => PyStr (f n)
  | other => other
  end.

(** [DetailOutput.humanize]: the two attributes are assigned anew. *)
Definition humanize `{Humanize} (self : gmap string PyValue) : gmap string PyValue :=
  let self := alter (humanized _humanize_number) "num_files" self in
  alter (humanized _humanize_bytes) "size" self.

(** [DetailOutput.to_dict]: a deep copy of the attribute dictionary. *)
Definition to_dict (self : gmap string PyValue) : gmap string PyValue := self.

End DetailOutput.

Section hydro.
Context `{Humanize}.

(** [detail(delta_table)]. *)
Definition detail (delta_table : DeltaTable) : M (gmap string PyValue) :=
  row ← detail_row delta_table;
  let detail_output := DetailOutput.init row in
  let detail_output := DetailOutput.humanize detail_output in
  mret (DetailOutput.to_dict detail_output).

(** [scd._scd2]. *)
Definition _scd2 (delta_table : DeltaTable) (source : DataFrame)
    (keys : list string) (effective_ts : string) (end_ts : option string)
    : M DeltaTable :=
  match provided end_ts with
  | None => raise (ValueError "`end_ts` parameter not provided, type 2 scd requires this")
  | Some end_ts =>
      target ← toDF delta_table;
      let updated_rows :=
        filter (λ r, isNull end_ts r = true) (left_semi_join keys target source) in
      let combined_rows := unionByName updated_rows source in
      let final_payload :=
        over keys (asc effective_ts) (lead_over effective_ts end_ts) combined_rows in
      let merge_keys := keys ++ [effective_ts] in
      merge delta_table final_payload merge_keys
        [whenMatchedUpdateAll; whenNotMatchedInsertAll];;
      mret delta_table
  end.

(** [scd._scd1].  The row-number column has a fresh random name and is
    dropped again; what remains is the first row of every partition. *)
Definition _scd1 (delta_table : DeltaTable) (source : DataFrame)
    (keys : list string) (effective_ts : string) : M DeltaTable :=
  let final_payload := over keys (desc effective_ts) first_row source in
  merge delta_table final_payload keys
    [whenMatchedUpdateAll; whenNotMatchedInsertAll];;
  mret delta_table.

(** [scd(delta_table, source, keys, effective_ts, end_ts, scd_type)]. *)
Definition scd (delta_table : DeltaTable) (source : DataFrame)
    (keys : list string) (effective_ts : string) (end_ts : option string)
    (scd_type : Z) : M DeltaTable :=
  if bool_decide (scd_type = 2) then
    _scd2 delta_table source keys effective_ts end_ts
  else if bool_decide (scd_type = 1) then
    _scd1 delta_table source keys effective_ts
  else raise (ValueError "`scd_type` not of (1,2)").

(** [bootstrap_scd2]. *)
Definition bootstrap_scd2 (source_df : DataFrame) (keys : list string)
    (effective_ts end_ts : string)
    (table_properties : option (list (string * string)))
    (partition_columns : list string)
    (comment path table_identifier : option string) : M (option DeltaTable) :=
  match provided path, provided table_identifier with
  | None, None =>
      raise (ValueError "Need to specify one (or both) of `path` and `table_identifier`")
  | _, _ =>
      let final_payload :=
        over keys (asc effective_ts) (lead_over effective_ts end_ts) source_df in
      createOrReplace (default [] table_properties) partition_columns
        (provided comment) (provided path) (provided table_identifier);;
      match provided table_identifier, provided path with
      | Some table_identifier, _ =>
          saveAsTable table_identifier final_payload;;
          mret (Some (forName table_identifier))
      | None, Some path =>
          save path Append final_payload;;
          mret (Some (forPath path))
      | None, None => mret None
      end
  end.

(** [deduplicate(delta_table, temp_path, keys, tiebreaking_columns)]. *)
Definition deduplicate (delta_table : DeltaTable) (temp_path : string)
    (keys : list string) (tiebreaking_columns : option (list string))
    : M DeltaTable :=
  let tiebreaking_columns := default [] tiebreaking_columns in
  detail_object ← detail delta_table;
  match detail_object !! "location" with
  | Some (PyStr target_location) =>
      df ← toDF delta_table;
      let dupes := over_partition keys more_than_one df in
      (if bool_decide (tiebreaking_columns ≠ []) then
         let deduped := over keys (desc_by tiebreaking_columns) first_row dupes in
         save temp_path ErrorIfExists deduped
       else
         save temp_path ErrorIfExists (drop_duplicates keys dupes));;
      merge delta_table (select_distinct keys dupes) keys [whenMatchedDelete];;
      staged ← load temp_path;
      save target_location Append staged;;
      mret delta_table
  | _ => raise (KeyError "location")
  end.

End hydro.

(** ** Observing a store *)

(** The location a handle refers to in a store. *)
Definition location_in (w : Store) (t : DeltaTable) : option string :=
  match t with
  | forPath p => Some p
  | forName n => catalog w !! n
  end.

(** The rows of the table a handle refers to. *)
Definition rows_of (w : Store) (t : DeltaTable) : option DataFrame :=
  loc ← location_in w t; rows <$> tables w !! loc.

(** The store answers the coming commit without a conflict. *)
Definition uncontended (w : Store) : Prop := head (conflicts w) ≠ Some true.

(** The store after a successful commit that replaces the rows at [loc]. *)
Definition committed (w : Store) (loc : string) (tbl : Table) (df : DataFrame)
    (cs : list call) : Store :=
  {| tables := <[loc := with_rows tbl df]> (tables w); catalog := catalog w;
     engine_info := engine_info w; conflicts := tail (conflicts w);
     calls := calls w ++ cs |}.

(** ** Running the store's commands *)

Ltac run_M :=
  unfold mbind, M_bind, mret, M_ret, raise, get, put, record, set_tables,
    set_catalog, next_commit_conflicts; simpl.

Lemma location_of_run w t loc :
  location_in w t = Some loc → location_of t w = (Ok loc, w).
Proof.
  destruct t as [p|n]; simpl; intros Hloc.
  - by simplify_eq.
  - unfold location_of. run_M. by rewrite Hloc.
Qed.

Lemma location_of_calls t w r w' :
  location_of t w = (r, w') → w' = w.
Proof.
  destruct t as [p|n]; unfold location_of; run_M.
  - by intros [= _ ->].
  - destruct (catalog w !! n); by intros [= _ ->].
Qed.

Lemma uncontended_default w : uncontended w → default false (head (conflicts w)) = false.
Proof.
  unfold uncontended. destruct (conflicts w) as [|[] cs]; simpl; congruence.
Qed.

Lemma merge_run t source cond clauses w loc tbl :
  cond ≠ [] →
  location_in w t = Some loc →
  tables w !! loc = Some tbl →
  bool_decide (whenMatchedUpdateAll ∈ clauses) && ambiguous cond source (rows tbl) = false →
  uncontended w →
  merge t source cond clauses w =
    (Ok tt, committed w loc tbl (merge_rows clauses cond source (rows tbl))
              [call_merge t clauses]).
Proof.
  intros Hcond Hloc Htbl Hamb Hfree. unfold merge, table_at.
  rewrite bool_decide_false by done.
  destruct t as [p|n]; simpl in Hloc; simplify_eq; unfold location_of; run_M.
  - rewrite Htbl. simpl. rewrite Hamb. rewrite uncontended_default by done. done.
  - rewrite Hloc. simpl. rewrite Htbl. simpl. rewrite Hamb.
    rewrite uncontended_default by done. done.
Qed.

Lemma toDF_run t w loc tbl :
  location_in w t = Some loc →
  tables w !! loc = Some tbl →
  toDF t w = (Ok (rows tbl),
    {| tables := tables w; catalog := catalog w; engine_info := engine_info w;
       conflicts := conflicts w; calls := calls w ++ [call_toDF t] |}).
Proof.
  intros Hloc Htbl. unfold toDF, table_at.
  destruct t as [p|n]; simpl in Hloc; simplify_eq; unfold location_of; run_M.
  - by rewrite Htbl.
  - rewrite Hloc. simpl. by rewrite Htbl.
Qed.

Lemma bind_Ok {A B} (m : M A) (f : A → M B) w a w' :
  m w = (Ok a, w') → (m ≫= f) w = f a w'.
Proof. intros Hm. unfold mbind, M_bind. by rewrite Hm. Qed.

Lemma bind_Raise {A B} (m : M A) (f : A → M B) w e w' :
  m w = (Raise e, w') → (m ≫= f) w = (Raise e, w').
Proof. intros Hm. unfold mbind, M_bind. by rewrite Hm. Qed.

(** The rows a type-2 merge hands to the store. *)
Definition scd2_payload (keys : list string) (effective_ts end_ts : string)
    (target source : DataFrame) : DataFrame :=
  over keys (asc effective_ts) (lead_over effective_ts end_ts)
    (unionByName
       (filter (λ r, isNull end_ts r = true) (left_semi_join keys target source))
       source).

(** The rows a type-1 merge hands to the store. *)
Definition scd1_payload (keys : list string) (effective_ts : string)
    (source : DataFrame) : DataFrame :=
  over keys (desc effective_ts) first_row source.

Definition upsert : list clause := [whenMatchedUpdateAll; whenNotMatchedInsertAll].

Lemma _scd2_run t source keys effective_ts end_ts e w loc tbl :
  provided end_ts = Some e →
  location_in w t = Some loc →
  tables w !! loc = Some tbl →
  ambiguous (keys ++ [effective_ts])
    (scd2_payload keys effective_ts e (rows tbl) source) (rows tbl) = false →
  uncontended w →
  _scd2 t source keys effective_ts end_ts w =
    (Ok t, committed w loc tbl
       (merge_rows upsert (keys ++ [effective_ts])
          (scd2_payload keys effective_ts e (rows tbl) source) (rows tbl))
       [call_toDF t; call_merge t upsert]).
Proof.
  intros Hend Hloc Htbl Hamb Hfree. unfold _scd2. rewrite Hend.
  erewrite bind_Ok by (by eapply toDF_run).
  erewrite bind_Ok.
  2:{ apply merge_run with (loc := loc) (tbl := tbl); simpl; try done.
      by destruct keys. }
  unfold mret, M_ret, committed. simpl. by rewrite <- app_assoc.
Qed.

Lemma _scd1_run t source keys effective_ts w loc tbl :
  keys ≠ [] →
  location_in w t = Some loc →
  tables w !! loc = Some tbl →
  ambiguous keys (scd1_payload keys effective_ts source) (rows tbl) = false →
  uncontended w →
  _scd1 t source keys effective_ts w =
    (Ok t, committed w loc tbl
       (merge_rows upsert keys (scd1_payload keys effective_ts source) (rows tbl))
       [call_merge t upsert]).
Proof.
  intros Hkeys Hloc Htbl Hamb Hfree. unfold _scd1.
  erewrite bind_Ok.
  2:{ by apply merge_run with (loc := loc) (tbl := tbl). }
  done.
Qed.

Lemma rows_of_committed w t loc tbl df cs :
  location_in w t = Some loc →
  rows_of (committed w loc tbl df cs) t = Some df.
Proof.
  intros Hloc. unfold rows_of.
  assert (location_in (committed w loc tbl df cs) t = Some loc) as ->
    by (by destruct t).
  simpl. by rewrite lookup_insert_eq.
Qed.

(** ** Scenario A *)

Definition scenario_A_incoming : DataFrame :=
  [ {[ "id" := 1; "ts" := 1 ]}; {[ "id" := 1; "ts" := 2 ]} ].

Definition scenario_A_table : DataFrame :=
  [ {[ "id" := 1; "ts" := 1; "end" := 2 ]}; {[ "id" := 1; "ts" := 2 ]} ].

(** C2. A type-2 merge with keys [id], effective_ts [ts], end_ts [end] of
    the batch [{id:1, ts:1}, {id:1, ts:2}] into an empty table succeeds
    and leaves exactly the two rows [{id:1, ts:1, end:2}] and
    [{id:1, ts:2, end:null}] in the table. *)
Theorem scenario_A_type2_on_empty_table (w : Store) (t : DeltaTable) :
  rows_of w t = Some [] →
  uncontended w →
  ∃ w', scd t scenario_A_incoming ["id"] "ts" (Some "end") 2 w = (Ok t, w')
        ∧ rows_of w' t = Some scenario_A_table
        ∧ Forall2 (λ r e, col "end" r = e) scenario_A_table [Some 2; None].
Proof.
  intros Hrows Hfree. unfold rows_of in Hrows.
  destruct (location_in w t) as [loc|] eqn:Hloc; [|done]. simpl in Hrows.
  destruct (tables w !! loc) as [tbl|] eqn:Htbl; [|done].
  simpl in Hrows. injection Hrows as Hrows.
  eexists. split; [|split].
  - unfold scd. rewrite bool_decide_true by done.
    eapply _scd2_run; try done. by rewrite Hrows.
  - rewrite rows_of_committed by done. f_equal. rewrite Hrows.
    vm_compute. reflexivity.
  - repeat constructor.
Qed.

Lemma scenario_A_witness :
  let w := {| tables := {[ "/tables/dim" :=
                 {| rows := [];
                    info := {| createdAt := 0; description := None;
                               format := "delta"; id := "dim";
                               lastModified := 0; minReaderVersion := 1;
                               minWriterVersion := 2; name := None;
                               numFiles := 0; partitionColumns := [];
                               properties := []; sizeInBytes := 0 |} |} ]};
              catalog := ∅;
              engine_info := {| createdAt := 0; description := None;
                               format := "delta"; id := "new";
                               lastModified := 0; minReaderVersion := 1;
                               minWriterVersion := 2; name := None;
                               numFiles := 0; partitionColumns := [];
                               properties := []; sizeInBytes := 0 |};
              conflicts := []; calls := [] |} in
  ∃ w', scd (forPath "/tables/dim") scenario_A_incoming ["id"] "ts" (Some "end") 2 w
          = (Ok (forPath "/tables/dim"), w')
        ∧ rows_of w' (forPath "/tables/dim") = Some scenario_A_table
        ∧ Forall2 (λ r e, col "end" r = e) scenario_A_table [Some 2; None].
Proof.
  intros w. apply (scenario_A_type2_on_empty_table w (forPath "/tables/dim")).
  - reflexivity.
  - unfold uncontended. simpl. discriminate.
Defined.

(** ** Configuration errors of [scd] *)

(** The errors the store itself raises. *)
Definition store_error (e : error) : Prop :=
  match e with
  | ValueError _ | KeyError _ => False
  | _ => True
  end.

Ltac run_cases :=
  repeat (case_match; simpl in *; simplify_eq; try done).

Lemma toDF_raises t w e w' : toDF t w = (Raise e, w') → store_error e.
Proof.
  unfold toDF, table_at, location_of. destruct t; run_M; intros; run_cases.
Qed.

Lemma merge_raises t source cond clauses w e w' :
  merge t source cond clauses w = (Raise e, w') → store_error e.
Proof.
  unfold merge, table_at, location_of. destruct t; run_M; intros; run_cases.
Qed.

Lemma _scd2_raises t source keys effective_ts end_ts e w err w' :
  provided end_ts = Some e →
  _scd2 t source keys effective_ts end_ts w = (Raise err, w') → store_error err.
Proof.
  intros Hend. unfold _scd2. rewrite Hend. unfold mbind at 1, M_bind at 1.
  destruct (toDF t w) as [[df|e1] w1] eqn:HtoDF.
  - unfold mbind, M_bind.
    destruct (merge _ _ _ _ w1) as [[[]|e2] w2] eqn:Hmerge.
    + by unfold mret, M_ret.
    + intros [= <- <-]. by eapply merge_raises.
  - intros [= <- <-]. by eapply toDF_raises.
Qed.

Lemma _scd1_raises t source keys effective_ts w err w' :
  _scd1 t source keys effective_ts w = (Raise err, w') → store_error err.
Proof.
  unfold _scd1, mbind, M_bind.
  destruct (merge _ _ _ _ w) as [[[]|e2] w2] eqn:Hmerge.
  - by unfold mret, M_ret.
  - intros [= <- <-]. by eapply merge_raises.
Qed.

(** When [scd] refuses its configuration. *)
Definition misconfigured (end_ts : option string) (scd_type : Z) : Prop :=
  (scd_type = 2 ∧ provided end_ts = None) ∨ (scd_type ≠ 1 ∧ scd_type ≠ 2).

(** C5. [scd] raises its configuration error ([ValueError]) exactly when
    the type is 2 and [end_ts] is not provided, or the type is neither 1
    nor 2; and when it does, the store is as it was: no call was made to
    it. *)
Theorem scd_configuration_error (t : DeltaTable) (source : DataFrame)
    (keys : list string) (effective_ts : string) (end_ts : option string)
    (scd_type : Z) (w : Store) :
  ((∃ msg w', scd t source keys effective_ts end_ts scd_type w
                = (Raise (ValueError msg), w'))
     ↔ misconfigured end_ts scd_type)
  ∧ ∀ msg w', scd t source keys effective_ts end_ts scd_type w
                = (Raise (ValueError msg), w') → w' = w ∧ calls w' = calls w.
Proof.
  unfold scd, misconfigured. split; [split|].
  - intros (msg & w' & Hrun).
    case_bool_decide as H2; [|case_bool_decide as H1].
    + left. split; [done|].
      destruct (provided end_ts) as [e|] eqn:Hend; [|done].
      by apply (_scd2_raises _ _ _ _ _ _ _ _ _ Hend) in Hrun.
    + by apply _scd1_raises in Hrun.
    + by right.
  - intros [[-> Hend]|[H1 H2]].
    + rewrite bool_decide_true by done. unfold _scd2. rewrite Hend. by eexists _, _.
    + rewrite !bool_decide_false by done. by eexists _, _.
  - intros msg w' Hrun.
    case_bool_decide as H2; [|case_bool_decide as H1].
    + destruct (provided end_ts) as [e|] eqn:Hend.
      * by apply (_scd2_raises _ _ _ _ _ _ _ _ _ Hend) in Hrun.
      * unfold _scd2 in Hrun. rewrite Hend in Hrun. by injection Hrun as _ ->.
    + by apply _scd1_raises in Hrun.
    + by injection Hrun as _ ->.
Qed.

(** ** Conflicts *)

(** A store with another schedule of commit outcomes. *)
Definition with_conflicts (cs : list bool) (w : Store) : Store :=
  {| tables := tables w; catalog := catalog w; engine_info := engine_info w;
     conflicts := cs; calls := calls w |}.

Definition is_merge (c : call) : bool :=
  match c with call_merge _ _ => true | _ => false end.

(** The number of merges a store was asked for. *)
Definition merge_calls (w : Store) : nat :=
  length (filter (λ c, is_merge c = true) (calls w)).

Lemma merge_calls_snoc w c cs :
  calls w = cs ++ [c] →
  merge_calls w = (length (filter (λ c, is_merge c = true) cs) + (if is_merge c then 1 else 0))%nat.
Proof.
  unfold merge_calls. intros ->. rewrite filter_app, length_app.
  rewrite filter_cons, filter_nil. by destruct (is_merge c).
Qed.

Lemma merge_conflict t source cond clauses w rest w1 :
  conflicts w = true :: rest →
  merge t source cond clauses (with_conflicts (false :: rest) w) = (Ok tt, w1) →
  ∃ w', merge t source cond clauses w = (Raise ConcurrentModification, w')
        ∧ tables w' = tables w ∧ conflicts w' = rest
        ∧ calls w' = calls w ++ [call_merge t clauses].
Proof.
  intros Hcs. unfold merge, table_at, location_of.
  destruct t; run_M; rewrite ?Hcs; intros; run_cases; by eexists.
Qed.

Lemma toDF_frame t w r w' :
  toDF t w = (r, w') →
  tables w' = tables w ∧ conflicts w' = conflicts w
  ∧ calls w' = calls w ++ [call_toDF t]
  ∧ ∀ cs, toDF t (with_conflicts cs w) = (r, with_conflicts cs w').
Proof.
  unfold toDF, table_at, location_of, with_conflicts.
  destruct t; run_M; intros; run_cases.
Qed.

Lemma merge_calls_merge w w' t clauses :
  calls w' = calls w ++ [call_merge t clauses] → merge_calls w' = S (merge_calls w).
Proof. intros Hc. rewrite (merge_calls_snoc _ _ _ Hc). unfold merge_calls. simpl. lia. Qed.

Lemma merge_calls_toDF w w' t :
  calls w' = calls w ++ [call_toDF t] → merge_calls w' = merge_calls w.
Proof. intros Hc. rewrite (merge_calls_snoc _ _ _ Hc). unfold merge_calls. simpl. lia. Qed.

(** C6, as the code has it. When the store answers the merge of [scd]
    with a conflict, in a run that would have succeeded uncontended, [scd]
    has asked for that one merge only and raises the conflict to its
    caller: the table is as it was, and the rest of the schedule (the
    commit that would have succeeded) is never tried. *)
Theorem scd_conflict_is_not_retried (t : DeltaTable) (source : DataFrame)
    (keys : list string) (effective_ts : string) (end_ts : option string)
    (scd_type : Z) (w : Store) (rest : list bool) (w1 : Store) :
  conflicts w = true :: rest →
  scd t source keys effective_ts end_ts scd_type (with_conflicts (false :: rest) w)
    = (Ok t, w1) →
  ∃ w', scd t source keys effective_ts end_ts scd_type w
          = (Raise ConcurrentModification, w')
        ∧ tables w' = tables w
        ∧ conflicts w' = rest
        ∧ merge_calls w' = S (merge_calls w).
Proof.
  intros Hcs. unfold scd.
  case_bool_decide as H2; [|case_bool_decide as H1; [|done]].
  - unfold _scd2. destruct (provided end_ts) as [e|]; [|done].
    unfold mbind at 1 3, M_bind at 1 3.
    destruct (toDF t w) as [r wr] eqn:HtoDF.
    destruct (toDF_frame _ _ _ _ HtoDF) as (Htb & Hcf & Hcalls & ->).
    destruct r as [target|err]; [|done].
    unfold mbind, M_bind.
    destruct (merge _ _ _ _ (with_conflicts _ wr)) as [[[]|err] wm] eqn:Hmerge; [|done].
    intros _. rewrite Hcs in Hcf.
    destruct (merge_conflict _ _ _ _ _ _ _ Hcf Hmerge) as (w' & -> & Htb' & Hcf' & Hcalls').
    exists w'. repeat split; [congruence|done|].
    by rewrite (merge_calls_merge _ _ _ _ Hcalls'), (merge_calls_toDF _ _ _ Hcalls).
  - unfold _scd1, mbind, M_bind.
    destruct (merge _ _ _ _ (with_conflicts _ w)) as [[[]|err] wm] eqn:Hmerge; [|done].
    intros _.
    destruct (merge_conflict _ _ _ _ _ _ _ Hcs Hmerge) as (w' & -> & Htb' & Hcf' & Hcalls').
    exists w'. repeat split; [done..|].
    by rewrite (merge_calls_merge _ _ _ _ Hcalls').
Qed.

Definition contended_store : Store :=
  {| tables := {[ "/tables/dim" :=
        {| rows := [];
           info := {| createdAt := 0; description := None; format := "delta";
                      id := "dim"; lastModified := 0; minReaderVersion := 1;
                      minWriterVersion := 2; name := None; numFiles := 0;
                      partitionColumns := []; properties := [];
                      sizeInBytes := 0 |} |} ]};
     catalog := ∅;
     engine_info := {| createdAt := 0; description := None; format := "delta";
                       id := "new"; lastModified := 0; minReaderVersion := 1;
                       minWriterVersion := 2; name := None; numFiles := 0;
                       partitionColumns := []; properties := [];
                       sizeInBytes := 0 |};
     conflicts := [true; false]; calls := [] |}.

Lemma scd_conflict_is_not_retried_witness :
  ∃ w', scd (forPath "/tables/dim") scenario_A_incoming ["id"] "ts" (Some "end") 2
          contended_store
          = (Raise ConcurrentModification, w')
        ∧ tables w' = tables contended_store
        ∧ conflicts w' = [false]
        ∧ merge_calls w' = S (merge_calls contended_store).
Proof.
  eapply (scd_conflict_is_not_retried (forPath "/tables/dim") scenario_A_incoming
            ["id"] "ts" (Some "end") 2 contended_store [false]).
  - reflexivity.
  - vm_compute. reflexivity.
Defined.

(** The claim of a retry fails on the store that refuses the first commit
    and would accept the second: the run ends in the conflict after one
    merge call, and the table is not what the uncontended run leaves. *)
Lemma scd_does_not_retry_once :
  let run cs := scd (forPath "/tables/dim") scenario_A_incoming ["id"] "ts"
                  (Some "end") 2 (with_conflicts cs contended_store) in
  (run [true; false]).1 = Raise ConcurrentModification
  ∧ merge_calls (run [true; false]).2 = 1%nat
  ∧ rows_of (run [true; false]).2 (forPath "/tables/dim") = Some []
  ∧ (run []).1 = Ok (forPath "/tables/dim")
  ∧ rows_of (run []).2 (forPath "/tables/dim") = Some scenario_A_table
  ∧ rows_of (run [true; false]).2 (forPath "/tables/dim")
      ≠ rows_of (run []).2 (forPath "/tables/dim").
Proof.
  intros run.
  assert (rows_of (run [true; false]).2 (forPath "/tables/dim") = Some []) as Hc
    by (vm_compute; reflexivity).
  assert (rows_of (run []).2 (forPath "/tables/dim") = Some scenario_A_table) as Hu
    by (vm_compute; reflexivity).
  split; [vm_compute; reflexivity|]. split; [vm_compute; reflexivity|].
  split; [done|]. split; [vm_compute; reflexivity|]. split; [done|].
  rewrite Hc, Hu. discriminate.
Qed.

(** ** The detail record *)

Lemma detail_row_run t w loc tbl :
  location_in w t = Some loc →
  tables w !! loc = Some tbl →
  detail_row t w = (Ok (loc, info tbl),
    {| tables := tables w; catalog := catalog w; engine_info := engine_info w;
       conflicts := conflicts w; calls := calls w ++ [call_detail t] |}).
Proof.
  intros Hloc Htbl. unfold detail_row, table_at.
  destruct t as [p|n]; simpl in Hloc; simplify_eq; unfold location_of; run_M.
  - by rewrite Htbl.
  - rewrite Hloc. simpl. by rewrite Htbl.
Qed.

Lemma detail_run `{Humanize} t w loc tbl :
  location_in w t = Some loc →
  tables w !! loc = Some tbl →
  detail t w =
    (Ok (DetailOutput.to_dict (DetailOutput.humanize (DetailOutput.init (loc, info tbl)))),
     {| tables := tables w; catalog := catalog w; engine_info := engine_info w;
        conflicts := conflicts w; calls := calls w ++ [call_detail t] |}).
Proof.
  intros Hloc Htbl. unfold detail.
  erewrite bind_Ok by (by eapply detail_row_run). done.
Qed.

(** C8, as the code has it. [detail] returns the attributes of the table
    with [size] and [num_files] holding the humanized strings in place of
    the numbers the store reported: the record has the thirteen
    attributes of [DetailOutput] and no other, and every attribute but
    those two is as [DetailOutput.__init__] set it. *)
Theorem detail_humanizes_in_place `{Humanize} (t : DeltaTable) (w : Store)
    (loc : string) (tbl : Table) :
  location_in w t = Some loc →
  tables w !! loc = Some tbl →
  ∃ d w', detail t w = (Ok d, w')
    ∧ d !! "size" = Some (PyStr (_humanize_bytes (sizeInBytes (info tbl))))
    ∧ d !! "num_files" = Some (PyStr (_humanize_number (numFiles (info tbl))))
    ∧ dom d = dom (DetailOutput.init (loc, info tbl))
    ∧ ∀ k, k ≠ "size" → k ≠ "num_files" →
        d !! k = DetailOutput.init (loc, info tbl) !! k.
Proof.
  intros Hloc Htbl. eexists _, _. split; [by eapply detail_run|].
  unfold DetailOutput.to_dict, DetailOutput.humanize, DetailOutput.init.
  split; [reflexivity|]. split; [reflexivity|]. split.
  - by rewrite !dom_alter_L.
  - intros k Hs Hn. by rewrite !lookup_alter_ne.
Qed.

(** A table of three files and 1024 bytes. *)
Definition described_table : Table :=
  {| rows := [];
     info := {| createdAt := 0; description := None; format := "delta";
                id := "dim"; lastModified := 0; minReaderVersion := 1;
                minWriterVersion := 2; name := None; numFiles := 3;
                partitionColumns := []; properties := [];
                sizeInBytes := 1024 |} |}.

Definition described_store : Store :=
  {| tables := {[ "/tables/dim" := described_table ]};
     catalog := ∅;
     engine_info := {| createdAt := 0; description := None; format := "delta";
                       id := "new"; lastModified := 0; minReaderVersion := 1;
                       minWriterVersion := 2; name := None; numFiles := 0;
                       partitionColumns := []; properties := [];
                       sizeInBytes := 0 |};
     conflicts := []; calls := [] |}.

(** Helpers that print the decimal numeral, the size with its unit. *)
Definition decimal_humanize : Humanize :=
  {| _humanize_number := λ n, pretty n;
     _humanize_bytes := λ n, pretty n +:+ " B" |}.

Lemma detail_humanizes_in_place_witness :
  ∃ d w', @detail decimal_humanize (forPath "/tables/dim") described_store = (Ok d, w')
    ∧ d !! "size" = Some (PyStr "1024 B")
    ∧ d !! "num_files" = Some (PyStr "3")
    ∧ dom d = dom (DetailOutput.init ("/tables/dim", info described_table))
    ∧ ∀ k, k ≠ "size" → k ≠ "num_files" →
        d !! k = DetailOutput.init ("/tables/dim", info described_table) !! k.
Proof.
  apply (@detail_humanizes_in_place decimal_humanize (forPath "/tables/dim")
           described_store "/tables/dim" described_table).
  - reflexivity.
  - reflexivity.
Defined.

(** The record [detail] returns for that table holds the number 1024 and
    the number 3 under no attribute: the numeric size and file count are
    not carried along with the strings. *)
Lemma detail_drops_the_numbers :
  ∃ d w', @detail decimal_humanize (forPath "/tables/dim") described_store = (Ok d, w')
    ∧ d !! "size" = Some (PyStr "1024 B")
    ∧ d !! "num_files" = Some (PyStr "3")
    ∧ (∀ k, d !! k ≠ Some (PyInt 1024))
    ∧ (∀ k, d !! k ≠ Some (PyInt 3)).
Proof.
  eexists _, _. split; [reflexivity|].
  split; [reflexivity|]. split; [reflexivity|].
  split; intros k Hk.
  - eapply (map_Forall_lookup_1 (λ _ v, v ≠ PyInt 1024)) in Hk; [done|].
    apply (bool_decide_unpack _). vm_compute. exact I.
  - eapply (map_Forall_lookup_1 (λ _ v, v ≠ PyInt 3)) in Hk; [done|].
    apply (bool_decide_unpack _). vm_compute. exact I.
Qed.

(** ** Bootstrap *)

(** The rows [bootstrap_scd2] writes. *)
Definition bootstrap_payload (keys : list string) (effective_ts end_ts : string)
    (source_df : DataFrame) : DataFrame :=
  over keys (asc effective_ts) (lead_over effective_ts end_ts) source_df.

Definition is_save (c : call) : bool :=
  match c with call_save _ _ => true | _ => false end.

(** C9. Every call of [bootstrap_scd2] that is given a path and a table
    identifier creates the table and writes the computed rows once, by
    [saveAsTable], and returns the handle [DeltaTable.forName]; the write
    by [save(path)] is made exactly in the calls that are given a path
    and no table identifier. *)
Theorem bootstrap_writes_by_name_when_both_given (source_df : DataFrame)
    (keys : list string) (effective_ts end_ts : string)
    (table_properties : option (list (string * string)))
    (partition_columns : list string)
    (comment path table_identifier : option string) (w : Store) :
  ∃ r w' new,
    bootstrap_scd2 source_df keys effective_ts end_ts table_properties
      partition_columns comment path table_identifier w = (r, w')
    ∧ calls w' = calls w ++ new
    ∧ (∀ p n, provided path = Some p → provided table_identifier = Some n →
         r = Ok (Some (forName n))
         ∧ new = [call_createOrReplace (Some p) (Some n); call_saveAsTable n]
         ∧ rows_of w' (forName n)
             = Some (bootstrap_payload keys effective_ts end_ts source_df))
    ∧ ((∃ c, c ∈ new ∧ is_save c = true)
         ↔ (is_Some (provided path) ∧ provided table_identifier = None)).
Proof.
  unfold bootstrap_scd2.
  destruct (provided path) as [p|] eqn:Hp;
    destruct (provided table_identifier) as [n|] eqn:Hn.
  - unfold createOrReplace, saveAsTable. run_M.
    rewrite lookup_insert_eq. simpl. rewrite lookup_insert_eq.
    eexists _, _, _. split; [done|]. simpl. split; [by rewrite <- app_assoc|].
    split.
    + intros ? ? [= <-] [= <-]. repeat split.
      unfold rows_of. simpl. rewrite lookup_insert_eq. simpl.
      by rewrite lookup_insert_eq.
    + split.
      * intros (c & Hc & Hsave). set_unfold. by destruct Hc as [->|[->|[]]].
      * by intros [_ ?].
  - unfold createOrReplace, save. run_M. rewrite lookup_insert_eq.
    eexists _, _, _. split; [done|]. simpl. split; [by rewrite <- app_assoc|].
    split; [done|]. split.
    + intros _. split; [by eexists|done].
    + intros _. exists (call_save p Append). split; [|done]. set_solver.
  - unfold createOrReplace, saveAsTable. run_M.
    rewrite lookup_insert_eq. simpl. rewrite lookup_insert_eq.
    eexists _, _, _. split; [done|]. simpl. split; [by rewrite <- app_assoc|].
    split; [done|]. split.
    + intros (c & Hc & Hsave). set_unfold. by destruct Hc as [->|[->|[]]].
    + by intros [[] _].
  - eexists _, _, []. split; [done|]. split; [by rewrite app_nil_r|].
    split; [done|]. split.
    + intros (c & Hc & _). by apply not_elem_of_nil in Hc.
    + by intros [[] _].
Qed.

Lemma bootstrap_scd2_rows source_df keys effective_ts end_ts table_properties
    partition_columns comment path table_identifier w :
  is_Some (provided path) ∨ is_Some (provided table_identifier) →
  ∃ h w',
    bootstrap_scd2 source_df keys effective_ts end_ts table_properties
      partition_columns comment path table_identifier w = (Ok (Some h), w')
    ∧ rows_of w' h = Some (bootstrap_payload keys effective_ts end_ts source_df).
Proof.
  intros Hgiven. unfold bootstrap_scd2.
  destruct (provided path) as [p|] eqn:Hp;
    destruct (provided table_identifier) as [n|] eqn:Hn.
  - unfold createOrReplace, saveAsTable. run_M.
    rewrite lookup_insert_eq. simpl. rewrite lookup_insert_eq.
    eexists _, _. split; [done|].
    unfold rows_of. simpl. rewrite lookup_insert_eq. simpl.
    by rewrite lookup_insert_eq.
  - unfold createOrReplace, save. run_M. rewrite lookup_insert_eq.
    eexists _, _. split; [done|].
    unfold rows_of. simpl. by rewrite lookup_insert_eq.
  - unfold createOrReplace, saveAsTable. run_M.
    rewrite lookup_insert_eq. simpl. rewrite lookup_insert_eq.
    eexists _, _. split; [done|].
    unfold rows_of. simpl. rewrite lookup_insert_eq. simpl.
    by rewrite lookup_insert_eq.
  - by destruct Hgiven as [[]|[]].
Qed.

Lemma merge_rows_upsert_empty cond payload :
  merge_rows upsert cond payload [] = payload.
Proof.
  unfold merge_rows, not_matched. simpl.
  induction payload as [|r rs IH]; [done|].
  rewrite filter_cons_True by done. by f_equal.
Qed.


(** ** Deduplication *)

(** The rows of a table that share their key with another row. *)
Definition dupes_of (keys : list string) (df : DataFrame) : DataFrame :=
  over_partition keys more_than_one df.

(** The rows [deduplicate] stages at [temp_path]. *)
Definition staged_rows (keys tiebreaking_columns : list string) (df : DataFrame)
    : DataFrame :=
  if bool_decide (tiebreaking_columns ≠ []) then
    over keys (desc_by tiebreaking_columns) first_row (dupes_of keys df)
  else drop_duplicates keys (dupes_of keys df).

(** The rows of the target after the delete and the append. *)
Definition deduplicated (keys tiebreaking_columns : list string) (df : DataFrame)
    : DataFrame :=
  merge_rows [whenMatchedDelete] keys (select_distinct keys (dupes_of keys df)) df
  ++ staged_rows keys tiebreaking_columns df.

Lemma save_new_run path mode df w :
  tables w !! path = None →
  save path mode df w =
    (Ok tt, {| tables := <[path := {| rows := df; info := engine_info w |}]> (tables w);
               catalog := catalog w; engine_info := engine_info w;
               conflicts := conflicts w;
               calls := calls w ++ [call_save path mode] |}).
Proof. intros Hnew. unfold save. run_M. rewrite Hnew. by destruct mode. Qed.

Lemma save_append_run path df w tbl :
  tables w !! path = Some tbl →
  save path Append df w =
    (Ok tt, {| tables := <[path := with_rows tbl (rows tbl ++ df)]> (tables w);
               catalog := catalog w; engine_info := engine_info w;
               conflicts := conflicts w;
               calls := calls w ++ [call_save path Append] |}).
Proof. intros Hold. unfold save. run_M. by rewrite Hold. Qed.

Lemma load_run path w tbl :
  tables w !! path = Some tbl →
  load path w =
    (Ok (rows tbl), {| tables := tables w; catalog := catalog w;
                       engine_info := engine_info w; conflicts := conflicts w;
                       calls := calls w ++ [call_load path] |}).
Proof. intros Hold. unfold load, table_at. run_M. by rewrite Hold. Qed.

Lemma detail_location `{Humanize} loc i :
  DetailOutput.to_dict (DetailOutput.humanize (DetailOutput.init (loc, i)))
    !! "location" = Some (PyStr loc).
Proof. reflexivity. Qed.

Lemma deduplicate_run `{Humanize} t temp_path keys tiebreaking_columns w loc tbl :
  location_in w t = Some loc →
  tables w !! loc = Some tbl →
  tables w !! temp_path = None →
  keys ≠ [] →
  uncontended w →
  ∃ w', deduplicate t temp_path keys tiebreaking_columns w = (Ok t, w')
    ∧ tables w' =
        <[loc := with_rows tbl
                   (deduplicated keys (default [] tiebreaking_columns) (rows tbl))]>
          (<[temp_path := {| rows := staged_rows keys (default [] tiebreaking_columns)
                                       (rows tbl);
                             info := engine_info w |}]> (tables w))
    ∧ catalog w' = catalog w
    ∧ calls w' = calls w ++
        [call_detail t; call_toDF t; call_save temp_path ErrorIfExists;
         call_merge t [whenMatchedDelete]; call_load temp_path;
         call_save loc Append].
Proof.
  intros Hloc Htbl Hnew Hkeys Hfree.
  assert (temp_path ≠ loc) as Hne by (intros ->; congruence).
  unfold deduplicate.
  erewrite bind_Ok by (by eapply detail_run).
  rewrite detail_location.
  erewrite bind_Ok by (by eapply toDF_run).
  fold (dupes_of keys (rows tbl)).
  set (staged := staged_rows keys (default [] tiebreaking_columns) (rows tbl)).
  erewrite (bind_Ok (if bool_decide (default [] tiebreaking_columns ≠ []) then _ else _)).
  2:{ instantiate (2 := tt).
      transitivity (save temp_path ErrorIfExists staged
        {| tables := tables w; catalog := catalog w; engine_info := engine_info w;
           conflicts := conflicts w;
           calls := (calls w ++ [call_detail t]) ++ [call_toDF t] |}).
      - unfold staged, staged_rows. by case_bool_decide.
      - by apply save_new_run. }
  erewrite bind_Ok.
  2:{ eapply merge_run with (loc := loc) (tbl := tbl); simpl; try done.
      by rewrite lookup_insert_ne. }
  erewrite bind_Ok.
  2:{ eapply load_run. simpl. rewrite lookup_insert_ne by done.
      by rewrite lookup_insert_eq. }
  erewrite bind_Ok.
  2:{ eapply save_append_run. simpl. by rewrite lookup_insert_eq. }
  eexists. split; [done|]. simpl. split; [|split; [done|]].
  - by rewrite insert_insert_eq.
  - by rewrite <- !app_assoc.
Qed.

Lemma filter_none {A} (P : A → Prop) `{∀ x, Decision (P x)} (l : list A) :
  (∀ x, x ∈ l → ¬ P x) → filter P l = [].
Proof.
  induction l as [|x l IH]; intros HP; [done|].
  rewrite filter_cons_False by (apply HP; left). apply IH.
  intros y Hy. apply HP. by right.
Qed.

Lemma filter_key_length_le_1 {A B} `{EqDecision B} (f : A → B) (l : list A) (k : B) :
  NoDup (f <$> l) → (length (filter (λ r, f r = k) l) ≤ 1)%nat.
Proof.
  induction l as [|x l IH]; simpl; [lia|].
  rewrite NoDup_cons. intros [Hx Hl]. rewrite filter_cons.
  case_decide as Hk; [|by apply IH].
  simpl. assert (filter (λ r, f r = k) l = []) as ->; [|simpl; lia].
  apply filter_none. intros y Hy Hfy.
  apply Hx. rewrite Hk, <- Hfy. by apply list_elem_of_fmap_2.
Qed.

Lemma bind_all_nil {A B} (f : A → list B) (l : list A) :
  (∀ x, x ∈ l → f x = []) → l ≫= f = [].
Proof.
  induction l as [|x l IH]; intros Hf; [done|].
  rewrite bind_cons, Hf by left. apply IH. intros y Hy. apply Hf. by right.
Qed.

Lemma dupes_of_NoDup keys df :
  NoDup (key_of keys <$> df) → dupes_of keys df = [].
Proof.
  intros Hnd. unfold dupes_of, over_partition, partitionBy.
  apply bind_all_nil. intros part Hpart.
  apply list_elem_of_fmap in Hpart as (k & -> & _).
  unfold more_than_one. rewrite bool_decide_false; [done|].
  pose proof (filter_key_length_le_1 (key_of keys) df k Hnd). lia.
Qed.

Lemma merge_rows_delete_nothing cond df :
  merge_rows [whenMatchedDelete] cond [] df = df.
Proof.
  unfold merge_rows. simpl. rewrite app_nil_r.
  induction df as [|r df IH]; [done|].
  rewrite bind_cons. simpl. by f_equal.
Qed.

Lemma staged_rows_no_dupes keys tiebreaking_columns df :
  dupes_of keys df = [] → staged_rows keys tiebreaking_columns df = [].
Proof. intros Hd. unfold staged_rows. rewrite Hd. by case_bool_decide. Qed.

Lemma with_rows_same tbl : with_rows tbl (rows tbl) = tbl.
Proof. by destruct tbl. Qed.

(** C10. On a table in which no key occurs in more than one row,
    [deduplicate] finds no duplicates, stages an empty data set at
    [temp_path], deletes nothing and appends nothing: the rows of the
    table are as they were. *)
Theorem deduplicate_without_duplicates `{Humanize} (t : DeltaTable)
    (temp_path : string) (keys : list string)
    (tiebreaking_columns : option (list string)) (w : Store) (loc : string)
    (tbl : Table) :
  location_in w t = Some loc →
  tables w !! loc = Some tbl →
  tables w !! temp_path = None →
  keys ≠ [] →
  uncontended w →
  NoDup (key_of keys <$> rows tbl) →
  ∃ w', deduplicate t temp_path keys tiebreaking_columns w = (Ok t, w')
    ∧ rows_of w' t = Some (rows tbl)
    ∧ dupes_of keys (rows tbl) = []
    ∧ merge_rows [whenMatchedDelete] keys
        (select_distinct keys (dupes_of keys (rows tbl))) (rows tbl) = rows tbl
    ∧ rows <$> tables w' !! temp_path = Some []
    ∧ call_save temp_path ErrorIfExists ∈ calls w'.
Proof.
  intros Hloc Htbl Hnew Hkeys Hfree Hnd.
  assert (temp_path ≠ loc) as Hne by (intros ->; congruence).
  pose proof (dupes_of_NoDup _ _ Hnd) as Hdupes.
  destruct (deduplicate_run t temp_path keys tiebreaking_columns w loc tbl)
    as (w' & Hrun & Htables & Hcat & Hcalls); [done..|].
  unfold deduplicated in Htables.
  rewrite staged_rows_no_dupes, Hdupes in Htables by done.
  change (select_distinct keys []) with (@nil Row) in Htables.
  rewrite merge_rows_delete_nothing, app_nil_r, with_rows_same in Htables.
  exists w'. split; [done|]. repeat split.
  - unfold rows_of.
    assert (location_in w' t = Some loc) as -> by (destruct t; simpl in *; congruence).
    simpl. by rewrite Htables, lookup_insert_eq.
  - done.
  - rewrite Hdupes. apply merge_rows_delete_nothing.
  - rewrite Htables, lookup_insert_ne, lookup_insert_eq by done. done.
  - rewrite Hcalls. set_solver.
Qed.

Definition unique_table : Table :=
  {| rows := [ {[ "id" := 0; "ts" := 1 ]}; {[ "id" := 1; "ts" := 2 ]} ];
     info := info described_table |}.

Definition unique_store : Store :=
  {| tables := {[ "/tables/dim" := unique_table ]};
     catalog := ∅;
     engine_info := engine_info described_store;
     conflicts := []; calls := [] |}.

Lemma deduplicate_without_duplicates_witness :
  ∃ w', @deduplicate decimal_humanize (forPath "/tables/dim") "/tmp/staging" ["id"]
          (Some ["ts"]) unique_store = (Ok (forPath "/tables/dim"), w')
    ∧ rows_of w' (forPath "/tables/dim") = Some (rows unique_table)
    ∧ dupes_of ["id"] (rows unique_table) = []
    ∧ merge_rows [whenMatchedDelete] ["id"]
        (select_distinct ["id"] (dupes_of ["id"] (rows unique_table)))
        (rows unique_table) = rows unique_table
    ∧ rows <$> tables w' !! "/tmp/staging" = Some []
    ∧ call_save "/tmp/staging" ErrorIfExists ∈ calls w'.
Proof.
  apply (@deduplicate_without_duplicates decimal_humanize (forPath "/tables/dim")
           "/tmp/staging" ["id"] (Some ["ts"]) unique_store "/tables/dim"
           unique_table).
  - reflexivity.
  - reflexivity.
  - reflexivity.
  - discriminate.
  - unfold uncontended. simpl. discriminate.
  - apply (bool_decide_unpack _). vm_compute. exact I.
Defined.

(** ** Orders *)

#[global] Instance cell_le_trans : Transitive cell_le.
Proof. intros [x|] [y|] [z|]; simpl; try done; lia. Qed.

#[global] Instance cell_le_total : Total cell_le.
Proof. intros [x|] [y|]; simpl; try tauto; lia. Qed.

#[global] Instance asc_trans c : Transitive (asc c).
Proof. intros r1 r2 r3. unfold asc. apply cell_le_trans. Qed.

#[global] Instance asc_total c : Total (asc c).
Proof. intros r1 r2. unfold asc. apply cell_le_total. Qed.

#[global] Instance desc_trans c : Transitive (desc c).
Proof. intros r1 r2 r3 H12 H23. unfold desc in *. by etrans. Qed.

#[global] Instance desc_total c : Total (desc c).
Proof. intros r1 r2. unfold desc. apply cell_le_total. Qed.

Lemma cell_lt_trans a b c : cell_lt a b → cell_lt b c → cell_lt a c.
Proof. destruct a, b, c; simpl; try done; lia. Qed.

Lemma cell_trichotomy a b : cell_lt a b ∨ a = b ∨ cell_lt b a.
Proof.
  destruct a as [x|], b as [y|]; simpl; auto.
  destruct (Z.lt_trichotomy x y) as [?|[->|?]]; auto.
Qed.

#[global] Instance desc_by_trans cols : Transitive (desc_by cols).
Proof.
  intros r1 r2 r3. induction cols as [|c cs IH]; simpl; [done|].
  intros [H12|[E12 H12]] [H23|[E23 H23]].
  - left. by eapply cell_lt_trans.
  - left. by rewrite E23 in H12.
  - left. by rewrite E12.
  - right. split; [congruence|auto].
Qed.

#[global] Instance desc_by_total cols : Total (desc_by cols).
Proof.
  intros r1 r2. induction cols as [|c cs IH]; simpl; [auto|].
  destruct (cell_trichotomy (col c r1) (col c r2)) as [?|[E|?]]; [auto| |auto].
  destruct IH; [left|right]; right; auto.
Qed.

(** ** The first row of every partition *)

Lemma sql_eq_true a b : sql_eq a b = true → a = b ∧ a ≠ None.
Proof.
  destruct a, b; simpl; try done. intros Heq%bool_decide_eq_true. by subst.
Qed.

Lemma on_columns_key_of cols s t :
  on_columns cols s t = true → key_of cols s = key_of cols t.
Proof.
  unfold on_columns, key_of. induction cols as [|c cs IH]; simpl; [done|].
  intros [Hc Hcs]%andb_true_iff. apply sql_eq_true in Hc as [-> _].
  f_equal. by apply IH.
Qed.

Lemma on_columns_refl cols r :
  (∀ k, k ∈ cols → col k r ≠ None) → on_columns cols r r = true.
Proof.
  unfold on_columns. induction cols as [|c cs IH]; simpl; intros Hnn; [done|].
  apply andb_true_iff. split.
  - specialize (Hnn c (list_elem_of_here _ _)). destruct (col c r); [|done].
    simpl. by apply bool_decide_eq_true.
  - apply IH. intros k Hk. apply Hnn. by right.
Qed.

Lemma first_row_ordered (R : relation Row) `{!RelDecision R}
    `{!Transitive R} `{!Total R} (part : DataFrame) :
  part ≠ [] →
  ∃ x, first_row (ordered R part) = [x] ∧ x ∈ part ∧ ∀ y, y ∈ part → R x y.
Proof.
  intros Hne. unfold first_row, ordered.
  pose proof (merge_sort_Permutation R part) as Hperm.
  pose proof (StronglySorted_merge_sort R part) as Hsorted.
  destruct (merge_sort R part) as [|x rest] eqn:Hsort.
  { apply Permutation_nil in Hperm. done. }
  exists x. split; [done|]. split.
  - rewrite <- Hperm. left.
  - intros y Hy. rewrite <- Hperm in Hy.
    apply StronglySorted_cons in Hsorted as [Hall _].
    apply elem_of_cons in Hy as [->|Hy].
    + by destruct (total R x x).
    + rewrite Forall_forall in Hall. by apply Hall.
Qed.

Lemma over_first_row_keys keys (R : relation Row) `{!RelDecision R}
    `{!Transitive R} `{!Total R} (df : DataFrame) (ks : list (list Cell)) :
  (∀ k, k ∈ ks → k ∈ key_of keys <$> df) →
  key_of keys <$>
    (((λ k, filter (λ r, key_of keys r = k) df) <$> ks)
       ≫= (λ part, first_row (ordered R part))) = ks.
Proof.
  induction ks as [|k ks IH]; intros Hks; [done|].
  rewrite fmap_cons, bind_cons, fmap_app, IH by (intros; apply Hks; by right).
  destruct (first_row_ordered R (filter (λ r, key_of keys r = k) df))
    as (x & -> & Hx & _).
  - specialize (Hks k (list_elem_of_here _ _)).
    apply list_elem_of_fmap in Hks as (r & -> & Hr).
    intros Hnil. eapply (filter_nil_not_elem_of _ _ r) in Hnil; done.
  - apply list_elem_of_filter in Hx as [<- _]. done.
Qed.

Lemma over_first_row_NoDup keys (R : relation Row) `{!RelDecision R}
    `{!Transitive R} `{!Total R} (df : DataFrame) :
  NoDup (key_of keys <$> over keys R first_row df).
Proof.
  unfold over, partitionBy.
  rewrite over_first_row_keys;
    [apply NoDup_remove_dups | apply _ .. | intros k; by rewrite elem_of_remove_dups].
Qed.

Lemma over_first_row_elem keys (R : relation Row) `{!RelDecision R}
    `{!Transitive R} `{!Total R} (df : DataFrame) p :
  p ∈ over keys R first_row df →
  p ∈ df ∧ ∀ r, r ∈ df → key_of keys r = key_of keys p → R p r.
Proof.
  unfold over, partitionBy. intros Hp.
  apply list_elem_of_bind in Hp as (part & Hp & Hpart).
  apply list_elem_of_fmap in Hpart as (k & -> & Hk).
  apply elem_of_remove_dups, list_elem_of_fmap in Hk as (r0 & -> & Hr0).
  destruct (first_row_ordered R (filter (λ r, key_of keys r = key_of keys r0) df))
    as (x & Hx & Hin & Hmax).
  { intros Hnil. eapply (filter_nil_not_elem_of _ _ r0) in Hnil; done. }
  rewrite Hx in Hp. apply list_elem_of_singleton in Hp as ->.
  apply list_elem_of_filter in Hin as [Hkx Hin]. split; [done|].
  intros r Hr Hkr. apply Hmax. apply list_elem_of_filter. split; [congruence|done].
Qed.

Lemma over_first_row_covers keys (R : relation Row) `{!RelDecision R}
    `{!Transitive R} `{!Total R} (df : DataFrame) r :
  r ∈ df → ∃ p, p ∈ over keys R first_row df ∧ key_of keys p = key_of keys r.
Proof.
  intros Hr.
  assert (key_of keys r ∈ key_of keys <$> over keys R first_row df) as Hk.
  { unfold over, partitionBy.
    rewrite over_first_row_keys;
      [apply elem_of_remove_dups; by apply list_elem_of_fmap_2 | apply _ ..
      | intros k; by rewrite elem_of_remove_dups]. }
  apply list_elem_of_fmap in Hk as (p & Hkp & Hp). eauto.
Qed.

(** ** Upserts of a payload with one row per key *)

Lemma filter_implied_length {A} (P Q : A → Prop) `{∀ x, Decision (P x)}
    `{∀ x, Decision (Q x)} (l : list A) :
  (∀ x, P x → Q x) → (length (filter P l) ≤ length (filter Q l))%nat.
Proof.
  intros HPQ. induction l as [|x l IH]; [done|].
  rewrite !filter_cons. destruct (decide (P x)) as [HP|HP].
  - rewrite decide_True by auto. simpl. lia.
  - case_decide; simpl; lia.
Qed.

Lemma filter_unique {A B} (f : A → B) (Q : A → Prop) `{∀ x, Decision (Q x)}
    (l : list A) (x : A) :
  NoDup (f <$> l) → x ∈ l → Q x → (∀ y, y ∈ l → Q y → f y = f x) →
  filter Q l = [x].
Proof.
  induction l as [|a l IH]; intros Hnd Hx HQ Hsame; [by apply not_elem_of_nil in Hx|].
  rewrite fmap_cons, NoDup_cons in Hnd. destruct Hnd as [Ha Hnd].
  apply elem_of_cons in Hx as [->|Hx].
  - rewrite filter_cons_True by done. f_equal. apply filter_none.
    intros y Hy HQy. apply Ha. rewrite <- (Hsame y) by (by right || done).
    by apply list_elem_of_fmap_2.
  - rewrite filter_cons_False.
    + apply IH; try done. intros y Hy. apply Hsame. by right.
    + intros HQa. apply Ha. rewrite (Hsame a) by (by left || done).
      by apply list_elem_of_fmap_2.
Qed.

Lemma bind_fixed {A} (f : A → list A) (l : list A) :
  (∀ x, x ∈ l → f x = [x]) → l ≫= f = l.
Proof.
  induction l as [|x l IH]; intros Hf; [done|].
  rewrite bind_cons, Hf by left. simpl. f_equal. apply IH.
  intros y Hy. apply Hf. by right.
Qed.

Section one_row_per_key.
Context (cond : list string) (payload : DataFrame).
Hypothesis payload_keys : NoDup (key_of cond <$> payload).

Lemma hits_at_most_one t : (length (hits cond payload t) ≤ 1)%nat.
Proof.
  unfold hits.
  etrans; [|apply (filter_key_length_le_1 (key_of cond) payload (key_of cond t)
                     payload_keys)].
  apply filter_implied_length. intros s. apply on_columns_key_of.
Qed.

Lemma not_ambiguous target : ambiguous cond payload target = false.
Proof.
  unfold ambiguous. induction target as [|t target IH]; [done|].
  simpl. rewrite IH, orb_false_r. apply bool_decide_eq_false.
  pose proof (hits_at_most_one t). lia.
Qed.

Lemma hits_self p :
  p ∈ payload → on_columns cond p p = true → hits cond payload p = [p].
Proof.
  intros Hp Hpp. unfold hits.
  apply (filter_unique (key_of cond)); try done.
  intros y _. apply on_columns_key_of.
Qed.

Lemma hits_of_match p t :
  p ∈ payload → on_columns cond p t = true → hits cond payload t = [p].
Proof.
  intros Hp Hpt.
  assert (p ∈ hits cond payload t) as Hin by (by apply list_elem_of_filter).
  pose proof (hits_at_most_one t) as Hlen.
  destruct (hits cond payload t) as [|a [|b l]]; simpl in *.
  - by apply not_elem_of_nil in Hin.
  - by apply list_elem_of_singleton in Hin as ->.
  - lia.
Qed.

Lemma upsert_target_row t :
  merge_target_row upsert cond payload t =
    match hits cond payload t with s :: _ => [s] | [] => [t] end.
Proof. done. Qed.

Lemma upsert_elem x target :
  x ∈ merge_rows upsert cond payload target →
  x ∈ payload ∨ (x ∈ target ∧ hits cond payload x = []).
Proof.
  unfold merge_rows. rewrite elem_of_app. intros [Hx|Hx].
  - apply list_elem_of_bind in Hx as (t & Hx & Ht).
    rewrite upsert_target_row in Hx.
    destruct (hits cond payload t) as [|s l] eqn:Hhits.
    + apply list_elem_of_singleton in Hx as ->. by right.
    + apply list_elem_of_singleton in Hx as ->. left.
      assert (s ∈ hits cond payload t) as Hs by (rewrite Hhits; left).
      by apply list_elem_of_filter in Hs as [_ Hs].
  - simpl in Hx. left. by apply list_elem_of_filter in Hx as [_ Hx].
Qed.

Lemma payload_in_upsert p target :
  p ∈ payload → p ∈ merge_rows upsert cond payload target.
Proof.
  intros Hp. unfold merge_rows. rewrite elem_of_app.
  destruct (existsb (λ t, on_columns cond p t) target) eqn:Hex.
  - left. apply existsb_exists in Hex as (t & Ht & Hpt).
    apply list_elem_of_bind. exists t. split; [|by apply list_elem_of_In].
    rewrite upsert_target_row, (hits_of_match p t) by done. left.
  - right. simpl. by apply list_elem_of_filter.
Qed.

(** Merging the payload a second time changes nothing, when the key
    columns of the payload hold no NULL. *)
Lemma upsert_idempotent target :
  (∀ p k, p ∈ payload → k ∈ cond → col k p ≠ None) →
  merge_rows upsert cond payload (merge_rows upsert cond payload target)
  = merge_rows upsert cond payload target.
Proof.
  intros Hnn. set (once := merge_rows upsert cond payload target).
  unfold merge_rows at 1, not_matched. simpl.
  rewrite bind_fixed, (filter_none _ payload); [by rewrite app_nil_r| |].
  - intros p Hp Hnone.
    assert (existsb (λ t, on_columns cond p t) once = true) as Hex; [|congruence].
    apply existsb_exists. exists p. split.
    + apply list_elem_of_In. by apply payload_in_upsert.
    + apply on_columns_refl. eauto.
  - intros x Hx. rewrite upsert_target_row.
    apply upsert_elem in Hx as [Hx|[_ ->]]; [|done].
    rewrite hits_self; [done..|]. apply on_columns_refl. eauto.
Qed.
End one_row_per_key.

(** ** Type-1 merges *)


(** A batch row with NULL in the key column matches no row of the table,
    its own earlier copy included: every application inserts it again,
    and the second application does not leave the table of the first. *)
Lemma type1_merge_repeats_null_key :
  let t := forPath "/tables/dim" in
  let source : DataFrame := [ {[ "ts" := 2 ]} ] in
  let once := (scd t source ["id"] "ts" None 1 described_store).2 in
  let twice := (scd t source ["id"] "ts" None 1 once).2 in
  (scd t source ["id"] "ts" None 1 described_store).1 = Ok t
  ∧ (scd t source ["id"] "ts" None 1 once).1 = Ok t
  ∧ rows_of once t = Some [ {[ "ts" := 2 ]} ]
  ∧ rows_of twice t = Some [ {[ "ts" := 2 ]}; {[ "ts" := 2 ]} ]
  ∧ rows_of twice t ≠ rows_of once t.
Proof.
  intros t source once twice.
  assert (rows_of once t = Some [ {[ "ts" := 2 ]} ]) as H1
    by (vm_compute; reflexivity).
  assert (rows_of twice t = Some [ {[ "ts" := 2 ]}; {[ "ts" := 2 ]} ]) as H2
    by (vm_compute; reflexivity).
  split; [vm_compute; reflexivity|]. split; [vm_compute; reflexivity|].
  split; [done|]. split; [done|]. rewrite H1, H2. discriminate.
Qed.

(** ** Deduplication and NULL keys *)

Definition null_key_table : Table :=
  {| rows := [ {[ "ts" := 1 ]}; {[ "ts" := 2 ]} ];
     info := info described_table |}.

Definition null_key_store : Store :=
  {| tables := {[ "/tables/dim" := null_key_table ]};
     catalog := ∅;
     engine_info := engine_info described_store;
     conflicts := []; calls := [] |}.

(** C3 at a table whose two rows hold NULL in the key column [id]. The
    window groups the two rows as duplicates and the later one is staged
    as survivor; the delete matches neither row, since [source.id =
    target.id] is not true of NULLs; the survivor is appended: three rows
    share the key where two did. *)
Lemma deduplicate_null_key_adds_a_row :
  let t := forPath "/tables/dim" in
  let run := @deduplicate decimal_humanize t "/tmp/staging" ["id"] (Some ["ts"])
               null_key_store in
  run.1 = Ok t
  ∧ dupes_of ["id"] (rows null_key_table) = rows null_key_table
  ∧ staged_rows ["id"] ["ts"] (rows null_key_table) = [ {[ "ts" := 2 ]} ]
  ∧ rows_of run.2 t = Some [ {[ "ts" := 1 ]}; {[ "ts" := 2 ]}; {[ "ts" := 2 ]} ]
  ∧ (∀ rs, rows_of run.2 t = Some rs →
       length (filter (λ r, key_of ["id"] r = [None]) rs) = 3%nat).
Proof.
  intros t run.
  assert (rows_of run.2 t
          = Some [ {[ "ts" := 1 ]}; {[ "ts" := 2 ]}; {[ "ts" := 2 ]} ]) as Hrows
    by (vm_compute; reflexivity).
  split; [vm_compute; reflexivity|]. split; [vm_compute; reflexivity|].
  split; [vm_compute; reflexivity|]. split; [done|].
  intros rs Hrs. rewrite Hrows in Hrs. injection Hrs as <-.
  vm_compute. reflexivity.
Qed.

(** ** Validity intervals *)

(** The rows of one key in the order of their [effective_ts]. *)
Definition history (keys : list string) (effective_ts : string)
    (k : list Cell) (df : DataFrame) : DataFrame :=
  ordered (asc effective_ts) (filter (λ r, key_of keys r = k) df).

(** Consecutive rows meet: the [end_ts] of a row is the [effective_ts] of
    the row after it. *)
Fixpoint meets (effective_ts end_ts : string) (h : DataFrame) : Prop :=
  match h with
  | [] => True
  | r1 :: rest =>
      match rest with
      | [] => True
      | r2 :: _ => col end_ts r1 = col effective_ts r2
      end ∧ meets effective_ts end_ts rest
  end.

(** The rows whose interval is open. *)
Definition open_rows (end_ts : string) (h : DataFrame) : DataFrame :=
  filter (λ r, isNull end_ts r = true) h.

(** Invariant I1: the intervals of every key of the table tile, and
    exactly one of them is open. *)
Definition tiles (keys : list string) (effective_ts end_ts : string)
    (df : DataFrame) : Prop :=
  ∀ k, k ∈ key_of keys <$> df →
    meets effective_ts end_ts (history keys effective_ts k df)
    ∧ length (open_rows end_ts (history keys effective_ts k df)) = 1%nat.

#[global] Instance meets_dec effective_ts end_ts h :
  Decision (meets effective_ts end_ts h).
Proof.
  induction h as [|r1 rest IH]; simpl; [apply _|].
  destruct rest; apply _.
Defined.

(** The same, as a check that can be run. *)
Definition tilesb (keys : list string) (effective_ts end_ts : string)
    (df : DataFrame) : bool :=
  forallb (λ k,
      bool_decide (meets effective_ts end_ts (history keys effective_ts k df))
      && bool_decide (length (open_rows end_ts (history keys effective_ts k df)) = 1%nat))
    (key_of keys <$> df).

Lemma tilesb_tiles keys effective_ts end_ts df :
  tilesb keys effective_ts end_ts df = true ↔ tiles keys effective_ts end_ts df.
Proof.
  unfold tilesb, tiles. rewrite forallb_forall. split.
  - intros Hall k Hk. apply list_elem_of_In, Hall in Hk.
    apply andb_true_iff in Hk as [H1 H2].
    by apply bool_decide_eq_true in H1, H2.
  - intros Hall k Hk. apply list_elem_of_In, Hall in Hk as [H1 H2].
    apply andb_true_iff. by rewrite !bool_decide_eq_true.
Qed.

Definition mid_history_table : Table :=
  {| rows := [ {[ "id" := 1; "ts" := 1; "end" := 3 ]}; {[ "id" := 1; "ts" := 3 ]} ];
     info := info described_table |}.

Definition mid_history_store : Store :=
  {| tables := {[ "/tables/dim" := mid_history_table ]};
     catalog := ∅;
     engine_info := engine_info described_store;
     conflicts := []; calls := [] |}.

(** A batch row whose [effective_ts] lies between two rows of the
    history. The table tiles before the merge: [1,3) and [3,-). The
    merge takes the open row and the batch row only, so the closed row
    keeps its end 3 while the new row [2,3) is inserted after it: the
    intervals [1,3) and [2,3) overlap, and the table no longer tiles. *)
Lemma type2_merge_mid_history_breaks_tiling :
  let t := forPath "/tables/dim" in
  let run := scd t [ {[ "id" := 1; "ts" := 2 ]} ] ["id"] "ts" (Some "end") 2
               mid_history_store in
  tiles ["id"] "ts" "end" (rows mid_history_table)
  ∧ run.1 = Ok t
  ∧ rows_of run.2 t
      = Some [ {[ "id" := 1; "ts" := 1; "end" := 3 ]}; {[ "id" := 1; "ts" := 3 ]};
               {[ "id" := 1; "ts" := 2; "end" := 3 ]} ]
  ∧ ∀ rs, rows_of run.2 t = Some rs → ¬ tiles ["id"] "ts" "end" rs.
Proof.
  intros t run.
  assert (rows_of run.2 t
          = Some [ {[ "id" := 1; "ts" := 1; "end" := 3 ]}; {[ "id" := 1; "ts" := 3 ]};
                   {[ "id" := 1; "ts" := 2; "end" := 3 ]} ]) as Hrows
    by (vm_compute; reflexivity).
  split; [apply tilesb_tiles; vm_compute; reflexivity|].
  split; [vm_compute; reflexivity|]. split; [done|].
  intros rs Hrs Htiles. rewrite Hrows in Hrs. injection Hrs as <-.
  apply tilesb_tiles in Htiles. vm_compute in Htiles. discriminate.
Qed.

(** ** Type-2 merges keep the tiling *)

Lemma filter_all {A} (P : A → Prop) `{∀ x, Decision (P x)} (l : list A) :
  (∀ x, x ∈ l → P x) → filter P l = l.
Proof.
  induction l as [|x l IH]; intros HP; [done|].
  rewrite filter_cons_True by (apply HP; left). f_equal. apply IH.
  intros y Hy. apply HP. by right.
Qed.

Lemma filter_narrow {A} (P Q : A → Prop) `{∀ x, Decision (P x)}
    `{∀ x, Decision (Q x)} (l : list A) :
  (∀ x, P x → Q x) → filter P l = filter P (filter Q l).
Proof.
  intros HPQ. induction l as [|x l IH]; [done|].
  rewrite !filter_cons. destruct (decide (P x)) as [HP|HP].
  - rewrite decide_True by auto. rewrite filter_cons_True by done. by f_equal.
  - case_decide; [|done]. by rewrite filter_cons_False.
Qed.

Lemma filter_swap {A} (P Q : A → Prop) `{∀ x, Decision (P x)}
    `{∀ x, Decision (Q x)} (l : list A) :
  filter P (filter Q l) = filter Q (filter P l).
Proof.
  induction l as [|x l IH]; [done|].
  rewrite !filter_cons.
  destruct (decide (P x)), (decide (Q x));
    rewrite ?filter_cons_True, ?filter_cons_False by done; by f_equal.
Qed.

Lemma filter_bind_same_key {A B} `{EqDecision B} (K : A → B) (f : A → list A)
    (k : B) (l : list A) :
  (∀ t x, t ∈ l → x ∈ f t → K x = K t) →
  filter (λ x, K x = k) (l ≫= f) = filter (λ x, K x = k) l ≫= f.
Proof.
  induction l as [|t l IH]; intros Hf; [done|].
  rewrite bind_cons, filter_app, IH by (intros; eapply Hf; [by right|done]).
  rewrite filter_cons. case_decide as Hk.
  - rewrite bind_cons. f_equal. apply filter_all.
    intros x Hx. rewrite (Hf t x); [done|left|done].
  - rewrite (filter_none _ (f t)); [done|].
    intros x Hx. rewrite (Hf t x); [done|left|done].
Qed.

Lemma filter_bind_keys {A B} `{EqDecision B} (K : A → B) (h : B → list A)
    (k : B) (ks : list B) :
  NoDup ks → (∀ k' x, x ∈ h k' → K x = k') →
  filter (λ x, K x = k) (ks ≫= h) = if decide (k ∈ ks) then h k else [].
Proof.
  intros Hnd Hh. induction Hnd as [|k' ks Hk' Hnd IH]; [done|].
  rewrite bind_cons, filter_app, IH.
  destruct (decide (k' = k)) as [->|Hne].
  - rewrite (decide_True (P := k ∈ k :: ks)) by left.
    rewrite (decide_False (P := k ∈ ks)) by done.
    rewrite app_nil_r. apply filter_all. intros x Hx. by apply Hh in Hx.
  - rewrite (filter_none _ (h k')).
    + simpl. destruct (decide (k ∈ ks)) as [Hin|Hin].
      * rewrite decide_True; [done|by right].
      * rewrite decide_False; [done|]. rewrite elem_of_cons. naive_solver.
    + intros x Hx Hkx. apply Hh in Hx. congruence.
Qed.

Lemma cell_lt_irrefl a : ¬ cell_lt a a.
Proof. destruct a as [x|]; simpl; [|tauto]. intros Hlt. lia. Qed.

Lemma cell_le_antisym a b : cell_le a b → cell_le b a → a = b.
Proof. destruct a, b; simpl; try done. intros. f_equal. lia. Qed.

Lemma cell_lt_le a b : cell_lt a b → cell_le a b.
Proof. destruct a, b; simpl; try done. lia. Qed.

Lemma cell_le_lt a b : cell_le a b → a ≠ b → cell_lt a b.
Proof.
  destruct a as [x|], b as [y|]; simpl; try done.
  intros Hle Hne. assert (x ≠ y) by congruence. lia.
Qed.

(** Strictly ascending in a column. *)
Definition ascending (c : string) (r1 r2 : Row) : Prop :=
  cell_lt (col c r1) (col c r2).

Lemma ascending_inj c l x y :
  StronglySorted (ascending c) l → x ∈ l → y ∈ l → col c x = col c y → x = y.
Proof.
  induction 1 as [|a l Hl IH Ha]; intros Hx Hy Heq.
  { by apply not_elem_of_nil in Hx. }
  rewrite Forall_forall in Ha.
  apply elem_of_cons in Hx as [->|Hx]; apply elem_of_cons in Hy as [->|Hy]; auto.
  - apply Ha in Hy. unfold ascending in Hy. rewrite Heq in Hy.
    by apply cell_lt_irrefl in Hy.
  - apply Ha in Hx. unfold ascending in Hx. rewrite Heq in Hx.
    by apply cell_lt_irrefl in Hx.
Qed.

Lemma ascending_asc c l :
  StronglySorted (ascending c) l → StronglySorted (asc c) l.
Proof.
  induction 1 as [|a l Hl IH Ha]; constructor; [done|].
  eapply Forall_impl; [done|]. intros x. apply cell_lt_le.
Qed.

Lemma asc_ascending c l :
  StronglySorted (asc c) l → NoDup (col c <$> l) → StronglySorted (ascending c) l.
Proof.
  induction 1 as [|a l Hl IH Ha]; intros Hnd; constructor.
  - apply IH. rewrite fmap_cons in Hnd. by apply NoDup_cons in Hnd as [_ ?].
  - rewrite fmap_cons in Hnd. apply NoDup_cons in Hnd as [Hnot _].
    rewrite Forall_forall in Ha |- *. intros x Hx.
    apply cell_le_lt; [by apply Ha|].
    intros Heq. apply Hnot. rewrite Heq. by apply list_elem_of_fmap_2.
Qed.

(** A strictly ascending arrangement of the rows is the window order. *)
Lemma ordered_ascending c (l sorted : DataFrame) :
  StronglySorted (ascending c) sorted → l ≡ₚ sorted →
  ordered (asc c) l = sorted.
Proof.
  intros Hsorted Hperm. unfold ordered.
  apply (StronglySorted_unique_strong (asc c)).
  - intros x1 x2 Hx1 Hx2 H12 H21.
    rewrite merge_sort_Permutation, Hperm in Hx1.
    apply (ascending_inj c sorted); try done.
    by apply cell_le_antisym.
  - apply StronglySorted_merge_sort; apply _.
  - by apply ascending_asc.
  - by rewrite merge_sort_Permutation.
Qed.

Section type2.
Context (keys : list string) (effective_ts end_ts : string).
Hypothesis end_ts_no_key : end_ts ∉ keys.
Hypothesis end_ts_other : end_ts ≠ effective_ts.

Local Abbreviation K := (key_of keys).
Local Abbreviation E := (col effective_ts).
Local Abbreviation N := (col end_ts).

Lemma withColumn_other c v r : c ≠ end_ts → col c (withColumn end_ts v r) = col c r.
Proof.
  intros Hc. unfold col, withColumn. destruct v.
  - by rewrite lookup_insert_ne.
  - by rewrite lookup_delete_ne.
Qed.

Lemma withColumn_end v r : N (withColumn end_ts v r) = v.
Proof.
  unfold col, withColumn. destruct v.
  - by rewrite lookup_insert_eq.
  - by rewrite lookup_delete_eq.
Qed.

Lemma withColumn_key v r : K (withColumn end_ts v r) = K r.
Proof.
  unfold key_of. apply list_fmap_ext. intros i c Hc.
  apply withColumn_other. intros ->. apply end_ts_no_key.
  by eapply list_elem_of_lookup_2.
Qed.

Lemma withColumn_eff v r : E (withColumn end_ts v r) = E r.
Proof. by apply withColumn_other. Qed.

Lemma lead_over_keys l : K <$> lead_over effective_ts end_ts l = K <$> l.
Proof.
  induction l as [|r l IH]; [done|]. cbn [lead_over].
  by rewrite !fmap_cons, withColumn_key, IH.
Qed.

Lemma lead_over_effs l : E <$> lead_over effective_ts end_ts l = E <$> l.
Proof.
  induction l as [|r l IH]; [done|]. cbn [lead_over].
  by rewrite !fmap_cons, withColumn_eff, IH.
Qed.

Lemma lead_over_elem x l :
  x ∈ lead_over effective_ts end_ts l → ∃ y, y ∈ l ∧ K x = K y ∧ E x = E y.
Proof.
  induction l as [|r l IH]; simpl; [by intros ?%not_elem_of_nil|].
  intros [->|Hx]%elem_of_cons.
  - exists r. split; [left|]. by rewrite withColumn_key, withColumn_eff.
  - destruct (IH Hx) as (y & Hy & ?). exists y. split; [by right|done].
Qed.

Lemma lead_over_head l :
  head (lead_over effective_ts end_ts l) ≫= E = head l ≫= E.
Proof. destruct l; [done|]. simpl. apply withColumn_eff. Qed.

Lemma lead_over_meets l : meets effective_ts end_ts (lead_over effective_ts end_ts l).
Proof.
  induction l as [|r l IH]; [done|]. simpl. split; [|done].
  destruct (lead_over effective_ts end_ts l) as [|r2 rest] eqn:Hl; [done|].
  rewrite withColumn_end, <- lead_over_head, Hl. done.
Qed.

Lemma lead_over_open l :
  l ≠ [] → (∀ r, r ∈ l → E r ≠ None) →
  length (open_rows end_ts (lead_over effective_ts end_ts l)) = 1%nat.
Proof.
  induction l as [|r l IH]; [done|]. intros _ Hnn. cbn [lead_over].
  unfold open_rows in *. rewrite filter_cons.
  destruct (decide _) as [Hopen|Hclosed].
  - unfold isNull in Hopen. rewrite withColumn_end in Hopen.
    destruct l as [|r2 l]; [done|]. simpl in Hopen.
    destruct (E r2) eqn:Hr2; [done|].
    exfalso. eapply Hnn; [|done]. right. left.
  - unfold isNull in Hclosed. rewrite withColumn_end in Hclosed.
    destruct l as [|r2 l]; [done|]. apply IH; [done|].
    intros x Hx. apply Hnn. by right.
Qed.

(** The rows of one key in the payload of a window of leads. *)
Lemma lead_payload_of_key k (df : DataFrame) :
  filter (λ r, K r = k)
    (over keys (asc effective_ts) (lead_over effective_ts end_ts) df)
  = lead_over effective_ts end_ts
      (ordered (asc effective_ts) (filter (λ r, K r = k) df)).
Proof.
  unfold over, partitionBy.
  set (h := λ k', lead_over effective_ts end_ts
                    (ordered (asc effective_ts) (filter (λ r, K r = k') df))).
  assert (∀ ks, ((λ k', filter (λ r, K r = k') df) <$> ks)
                  ≫= (λ part, lead_over effective_ts end_ts
                                (ordered (asc effective_ts) part))
                = ks ≫= h) as ->.
  { induction ks as [|k' ks IH]; [done|].
    by rewrite fmap_cons, !bind_cons, IH. }
  rewrite (filter_bind_keys K h k); [|apply NoDup_remove_dups|].
  - case_decide as Hk; [done|]. unfold h.
    rewrite (filter_none _ df); [done|].
    intros r Hr Hkr. apply Hk. rewrite elem_of_remove_dups, <- Hkr.
    by apply list_elem_of_fmap_2.
  - intros k' x Hx. apply lead_over_elem in Hx as (y & Hy & -> & _).
    unfold ordered in Hy. rewrite merge_sort_Permutation in Hy.
    by apply list_elem_of_filter in Hy as [? _].
Qed.

Lemma key_of_col s t c : K s = K t → c ∈ keys → col c s = col c t.
Proof.
  unfold key_of. intros Hk Hc. apply list_elem_of_lookup in Hc as [i Hi].
  apply (f_equal (λ l, l !! i)) in Hk. rewrite !list_lookup_fmap, Hi in Hk.
  simpl in Hk. by injection Hk.
Qed.

Lemma on_columns_same_key s t :
  K s = K t → (∀ c, c ∈ keys → col c t ≠ None) → on_columns keys s t = true.
Proof.
  intros Hk Hnn. unfold on_columns. apply forallb_forall. intros c Hc.
  apply list_elem_of_In in Hc. rewrite (key_of_col s t c) by done.
  specialize (Hnn c Hc). destruct (col c t); [|done].
  simpl. by apply bool_decide_eq_true.
Qed.

Lemma on_columns_merge_keys s t :
  on_columns (keys ++ [effective_ts]) s t = true
  ↔ on_columns keys s t = true ∧ sql_eq (E s) (E t) = true.
Proof.
  unfold on_columns. rewrite forallb_app, andb_true_iff. simpl.
  by rewrite andb_true_r.
Qed.

Lemma NoDup_effs_of_key (l : DataFrame) k :
  NoDup ((λ r, (K r, E r)) <$> l) → NoDup (E <$> filter (λ r, K r = k) l).
Proof.
  induction l as [|r l IH]; [constructor|].
  rewrite fmap_cons, NoDup_cons. intros [Hr Hl]. rewrite filter_cons.
  case_decide as Hk; [|by apply IH].
  rewrite fmap_cons. apply NoDup_cons. split; [|by apply IH].
  intros Hin. apply Hr. apply list_elem_of_fmap in Hin as (y & Hy & Hin).
  apply list_elem_of_filter in Hin as [Hky Hin].
  apply list_elem_of_fmap. exists y. split; [|done]. congruence.
Qed.

Lemma ascending_effs (l : DataFrame) :
  StronglySorted (ascending effective_ts) l ↔ StronglySorted cell_lt (E <$> l).
Proof.
  induction l as [|r l IH]; [split; constructor|].
  rewrite fmap_cons, !StronglySorted_cons, IH, Forall_fmap. done.
Qed.

Lemma meets_closed init o :
  meets effective_ts end_ts (init ++ [o]) →
  (∀ r, r ∈ init ++ [o] → E r ≠ None) →
  ∀ c, c ∈ init → N c ≠ None.
Proof.
  induction init as [|c0 init IH]; intros Hm Hnn c Hc.
  { by apply not_elem_of_nil in Hc. }
  simpl in Hm. destruct Hm as [Hhead Hm].
  apply elem_of_cons in Hc as [->|Hc].
  - destruct (init ++ [o]) as [|r2 rest] eqn:Hrest.
    { by destruct init. }
    rewrite Hhead. apply Hnn. rewrite <- app_comm_cons, Hrest. right. left.
  - apply IH; [done| |done]. intros r Hr. apply Hnn. by right.
Qed.

Lemma meets_app_lead init l1 l2 :
  meets effective_ts end_ts (init ++ l1) →
  l1 ≠ [] → head l1 ≫= E = head l2 ≫= E → l2 ≠ [] →
  meets effective_ts end_ts l2 →
  meets effective_ts end_ts (init ++ l2).
Proof.
  intros Hm Hl1 Hhead Hl2 Hm2. induction init as [|c init IH]; [done|].
  simpl in Hm |- *. destruct Hm as [Hc Hm]. split; [|by apply IH].
  destruct init as [|c2 init]; simpl in *; [|done].
  destruct l1 as [|x1 l1], l2 as [|x2 l2]; try done.
  simpl in Hhead. congruence.
Qed.

Section merge.
Context (T B : DataFrame).
Hypothesis batch_keys : ∀ b c, b ∈ B → c ∈ keys → col c b ≠ None.
Hypothesis batch_later :
  ∀ t b, t ∈ T → b ∈ B → K t = K b → cell_lt (E t) (E b).

Local Abbreviation payload := (scd2_payload keys effective_ts end_ts T B).
Local Abbreviation merge_keys := (keys ++ [effective_ts]).
Local Abbreviation merged := (merge_rows upsert merge_keys payload T).
Local Abbreviation updated_rows :=
  (filter (λ r, isNull end_ts r = true) (left_semi_join keys T B)).

Lemma payload_of_key k :
  filter (λ r, K r = k) payload
  = lead_over effective_ts end_ts
      (ordered (asc effective_ts)
         (filter (λ r, K r = k) updated_rows ++ filter (λ r, K r = k) B)).
Proof.
  unfold scd2_payload, unionByName.
  by rewrite lead_payload_of_key, filter_app.
Qed.

Lemma updated_rows_absent k :
  k ∉ K <$> B → filter (λ r, K r = k) updated_rows = [].
Proof.
  intros Hk. apply filter_none. intros t Ht Hkt. apply Hk.
  apply list_elem_of_filter in Ht as [_ Ht].
  unfold left_semi_join in Ht. apply list_elem_of_filter in Ht as [Hsemi _].
  apply existsb_exists in Hsemi as (b & Hb & Htb).
  apply on_columns_key_of in Htb. rewrite <- Hkt, Htb.
  by apply list_elem_of_fmap_2, list_elem_of_In.
Qed.

Lemma updated_rows_present k :
  k ∈ K <$> B →
  filter (λ r, K r = k) updated_rows
  = open_rows end_ts (filter (λ r, K r = k) T).
Proof.
  intros Hk. apply list_elem_of_fmap in Hk as (b & -> & Hb).
  unfold open_rows, left_semi_join.
  rewrite (filter_swap (λ r, K r = K b)). f_equal.
  rewrite (filter_swap (λ r, K r = K b)). apply filter_all.
  intros t Ht. apply list_elem_of_filter in Ht as [Hkt _].
  apply existsb_exists. exists b. split; [by apply list_elem_of_In|].
  apply on_columns_same_key; [done|]. intros c Hc. by apply batch_keys.
Qed.

Lemma hits_of_key t :
  hits merge_keys payload t
  = filter (λ s, on_columns merge_keys s t = true)
      (filter (λ r, K r = K t) payload).
Proof.
  unfold hits. apply filter_narrow. intros s Hs.
  apply on_columns_merge_keys in Hs as [Hs _]. by apply on_columns_key_of.
Qed.

Lemma not_matched_of_key k :
  filter (λ r, K r = k) (not_matched merge_keys payload T)
  = filter (λ s, existsb (λ t, on_columns merge_keys s t) T = false)
      (filter (λ r, K r = k) payload).
Proof. unfold not_matched. apply filter_swap. Qed.

Lemma merge_target_row_key t x :
  x ∈ merge_target_row upsert merge_keys payload t → K x = K t.
Proof.
  change (merge_target_row upsert merge_keys payload t)
    with (match hits merge_keys payload t with s :: _ => [s] | [] => [t] end).
  destruct (hits merge_keys payload t) as [|s l] eqn:Hhits.
  - by intros ->%list_elem_of_singleton.
  - intros ->%list_elem_of_singleton.
    assert (s ∈ hits merge_keys payload t) as Hs by (rewrite Hhits; left).
    apply list_elem_of_filter in Hs as [Hs _].
    apply on_columns_merge_keys in Hs as [Hs _]. by apply on_columns_key_of.
Qed.

Lemma merged_of_key k :
  filter (λ r, K r = k) merged
  = (filter (λ r, K r = k) T ≫= merge_target_row upsert merge_keys payload)
    ++ filter (λ s, existsb (λ t, on_columns merge_keys s t) T = false)
         (filter (λ r, K r = k) payload).
Proof.
  unfold merge_rows. rewrite filter_app. f_equal.
  - apply filter_bind_same_key. intros t x _. apply merge_target_row_key.
  - simpl. apply not_matched_of_key.
Qed.

(** A key the batch does not mention keeps its rows. *)
Lemma merged_of_other_key k :
  k ∉ K <$> B → filter (λ r, K r = k) merged = filter (λ r, K r = k) T.
Proof.
  intros Hk.
  assert (filter (λ r, K r = k) payload = []) as Hnone.
  { rewrite payload_of_key, updated_rows_absent by done.
    rewrite (filter_none _ B); [done|].
    intros b Hb Hkb. apply Hk. rewrite <- Hkb. by apply list_elem_of_fmap_2. }
  rewrite merged_of_key, Hnone, filter_nil, app_nil_r.
  apply bind_fixed. intros t Ht. apply list_elem_of_filter in Ht as [Hkt _].
  change (merge_target_row upsert merge_keys payload t)
    with (match hits merge_keys payload t with s :: _ => [s] | [] => [t] end).
  by rewrite hits_of_key, Hkt, Hnone.
Qed.

Hypothesis batch_effs : ∀ b, b ∈ B → E b ≠ None.
Hypothesis batch_distinct : NoDup ((λ r, (K r, E r)) <$> B).
Hypothesis table_tiles : tiles keys effective_ts end_ts T.
Hypothesis table_effs : ∀ t, t ∈ T → E t ≠ None.
Hypothesis table_distinct : NoDup ((λ r, (K r, E r)) <$> T).

Lemma history_elem k df r :
  r ∈ history keys effective_ts k df ↔ K r = k ∧ r ∈ df.
Proof.
  unfold history, ordered. by rewrite merge_sort_Permutation, list_elem_of_filter.
Qed.

Lemma history_ascending k df :
  NoDup ((λ r, (K r, E r)) <$> df) →
  StronglySorted (ascending effective_ts) (history keys effective_ts k df).
Proof.
  intros Hnd. apply asc_ascending.
  - apply StronglySorted_merge_sort; apply _.
  - unfold history, ordered. rewrite merge_sort_Permutation.
    by apply NoDup_effs_of_key.
Qed.

Lemma closed_not_open l :
  (∀ c, c ∈ l → N c ≠ None) → open_rows end_ts l = [].
Proof.
  intros Hc. apply filter_none. intros c Hin Hopen. apply (Hc c Hin).
  unfold isNull in Hopen. by destruct (N c).
Qed.

(** The history of a key of the table: closed rows, then the open row. *)
Lemma table_history k :
  k ∈ K <$> T →
  ∃ init o,
    history keys effective_ts k T = init ++ [o]
    ∧ (∀ c, c ∈ init → N c ≠ None)
    ∧ isNull end_ts o = true.
Proof.
  intros Hk. destruct (table_tiles k Hk) as [Hmeets Hopen].
  assert (history keys effective_ts k T ≠ []) as Hne.
  { apply list_elem_of_fmap in Hk as (r & -> & Hr). intros Hnil.
    assert (r ∈ history keys effective_ts (K r) T) as Hin
      by (by apply history_elem).
    rewrite Hnil in Hin. by apply not_elem_of_nil in Hin. }
  destruct (exists_last Hne) as (init & o & Heq).
  exists init, o. rewrite Heq in Hmeets, Hopen |- *.
  assert (∀ c, c ∈ init → N c ≠ None) as Hclosed.
  { apply meets_closed with (o := o); [done|].
    intros r Hr. rewrite <- Heq in Hr. apply history_elem in Hr as [_ Hr].
    by apply table_effs. }
  split; [done|]. split; [done|].
  unfold open_rows in Hopen. rewrite filter_app in Hopen.
  fold (open_rows end_ts init) in Hopen.
  rewrite closed_not_open in Hopen by done. simpl in Hopen.
  rewrite filter_cons in Hopen. by case_decide.
Qed.

(** The rows of a key of the batch after the merge, arranged: the
    closed rows of the table, then the formerly open row and the
    batch rows with their leads. *)
Lemma merged_of_batch_key k :
  k ∈ K <$> B →
  ∃ init X,
    filter (λ r, K r = k) merged
      ≡ₚ init ++ lead_over effective_ts end_ts X
    ∧ X ≠ []
    ∧ (∀ r, r ∈ X → E r ≠ None)
    ∧ (∀ c, c ∈ init → N c ≠ None)
    ∧ StronglySorted (ascending effective_ts) (init ++ X)
    ∧ (init ≠ [] → ∃ o, head X = Some o
         ∧ meets effective_ts end_ts (init ++ [o]))
    ∧ (∀ t, t ∈ T → K t = k →
         (length (hits merge_keys payload t) ≤ 1)%nat).
Proof.
  intros Hk.
  assert (∀ b, b ∈ (ordered (asc effective_ts) (filter (λ r, K r = k) B)) ↔ K b = k ∧ b ∈ B) as Hbatch_elem.
  { intros b. unfold ordered.
    by rewrite merge_sort_Permutation, list_elem_of_filter. }
  assert ((ordered (asc effective_ts) (filter (λ r, K r = k) B)) ≠ []) as Hbatch_ne.
  { destruct (list_elem_of_fmap_1 _ _ _ Hk) as (b & Hkb & Hb). intros Hnil.
    assert (b ∈ (ordered (asc effective_ts) (filter (λ r, K r = k) B))) as Hin
      by (by apply Hbatch_elem).
    rewrite Hnil in Hin. by apply not_elem_of_nil in Hin. }
  assert (StronglySorted (ascending effective_ts) (ordered (asc effective_ts) (filter (λ r, K r = k) B))) as Hbatch_sorted.
  { apply asc_ascending.
    - apply StronglySorted_merge_sort; apply _.
    - unfold ordered. rewrite merge_sort_Permutation.
      by apply NoDup_effs_of_key. }
  assert (∀ r c, K r = k → c ∈ keys → col c r ≠ None) as Hk_cols.
  { intros r c Hr Hc. destruct (list_elem_of_fmap_1 _ _ _ Hk) as (b & Hkb & Hb).
    rewrite (key_of_col r b c) by congruence. by apply batch_keys. }
  assert (∀ x, x ∈ lead_over effective_ts end_ts (ordered (asc effective_ts) (filter (λ r, K r = k) B)) →
            K x = k ∧ ∃ b, b ∈ B ∧ K b = k ∧ E x = E b) as Hlead_elem.
  { intros x Hx. apply lead_over_elem in Hx as (b & Hb & Hkx & Hex).
    apply Hbatch_elem in Hb as [Hkb Hb]. split; [congruence|]. by exists b. }
  assert (∀ x t, x ∈ lead_over effective_ts end_ts (ordered (asc effective_ts) (filter (λ r, K r = k) B)) → t ∈ T →
            on_columns merge_keys x t = false) as Hlead_new.
  { intros x t Hx Ht. apply not_true_is_false. intros Hxt.
    apply on_columns_merge_keys in Hxt as [Hkeys Heff].
    apply on_columns_key_of in Hkeys. apply sql_eq_true in Heff as [Heff _].
    apply Hlead_elem in Hx as [Hkx (b & Hb & Hkb & Hex)].
    pose proof (batch_later t b Ht Hb ltac:(congruence)) as Hlt.
    rewrite <- Hex, Heff in Hlt. by apply cell_lt_irrefl in Hlt. }
  rewrite merged_of_key, payload_of_key, updated_rows_present by done.
  destruct (decide (k ∈ K <$> T)) as [HkT|HkT].
  - (* the key has a history *)
    destruct (table_history k HkT) as (init & o & Hhist & Hclosed & Hopen).
    pose proof (history_ascending k T table_distinct) as Hasc.
    rewrite Hhist in Hasc.
    assert (∀ r, r ∈ init ++ [o] → K r = k ∧ r ∈ T) as Hold.
    { intros r Hr. rewrite <- Hhist in Hr. by apply history_elem in Hr. }
    assert (K o = k ∧ o ∈ T) as [Hko HoT] by (apply Hold; set_solver).
    assert (filter (λ r, K r = k) T ≡ₚ init ++ [o]) as Hperm.
    { rewrite <- Hhist. unfold history, ordered.
      by rewrite merge_sort_Permutation. }
    assert (open_rows end_ts (filter (λ r, K r = k) T) = [o]) as Hopen_row.
    { apply Permutation_singleton_r. unfold open_rows at 1. rewrite Hperm.
      rewrite filter_app. fold (open_rows end_ts init).
      rewrite closed_not_open by done. simpl.
      by rewrite filter_cons_True, filter_nil by done. }
    assert (Forall (ascending effective_ts o) (ordered (asc effective_ts) (filter (λ r, K r = k) B))) as Ho_first.
    { apply Forall_forall. intros b [Hkb Hb]%Hbatch_elem.
      apply batch_later; [done..|congruence]. }
    assert (ordered (asc effective_ts) ([o] ++ filter (λ r, K r = k) B) = o :: (ordered (asc effective_ts) (filter (λ r, K r = k) B)))
      as Hord.
    { apply ordered_ascending; [by constructor|].
      simpl. constructor. unfold ordered.
      by rewrite merge_sort_Permutation. }
    rewrite Hopen_row, Hord.
    exists init, (o :: (ordered (asc effective_ts) (filter (λ r, K r = k) B))).
    cbn [lead_over]. set (o' := withColumn end_ts (head (ordered (asc effective_ts) (filter (λ r, K r = k) B)) ≫= E) o).
    assert (K o' = k) as Hko' by (unfold o'; by rewrite withColumn_key).
    assert (E o' = E o) as Heo' by (unfold o'; by rewrite withColumn_eff).
    assert (on_columns merge_keys o' o = true) as Hoo.
    { apply on_columns_merge_keys. split.
      - apply on_columns_same_key; [congruence|]. intros c. by apply Hk_cols.
      - rewrite Heo'. pose proof (table_effs o HoT) as Hnn.
        destruct (E o); [|done]. simpl. by apply bool_decide_eq_true. }
    assert (filter (λ r, K r = k) payload
            = o' :: lead_over effective_ts end_ts
                      (ordered (asc effective_ts) (filter (λ r, K r = k) B)))
      as Hpayload.
    { rewrite payload_of_key, updated_rows_present by done.
      by rewrite Hopen_row, Hord. }
    assert (∀ c, c ∈ init → hits merge_keys payload c = []) as Hhits_init.
    { intros c Hc. destruct (Hold c) as [Hkc HcT]; [set_solver|].
      rewrite hits_of_key, Hkc, Hpayload.
      apply filter_none. intros s Hs Hsc.
      apply elem_of_cons in Hs as [->|Hs].
      - apply on_columns_merge_keys in Hsc as [_ Heff].
        apply sql_eq_true in Heff as [Heff _]. rewrite Heo' in Heff.
        apply StronglySorted_app in Hasc as (Hcross & _ & _).
        specialize (Hcross c o Hc ltac:(set_solver)).
        unfold ascending in Hcross. rewrite Heff in Hcross.
        by apply cell_lt_irrefl in Hcross.
      - by rewrite (Hlead_new s c Hs HcT) in Hsc. }
    assert (hits merge_keys payload o = [o']) as Hhits_o.
    { rewrite hits_of_key, Hko, Hpayload.
      rewrite filter_cons_True by done. f_equal.
      apply filter_none. intros s Hs Hso.
      by rewrite (Hlead_new s o Hs HoT) in Hso. }
    split; [|split; [done|split; [|split; [done|split; [|split]]]]].
    + rewrite Hperm, bind_app, <- app_assoc. apply Permutation_app.
      * rewrite bind_fixed; [done|]. intros c Hc.
        change (merge_target_row upsert merge_keys payload c)
          with (match hits merge_keys payload c with s :: _ => [s] | [] => [c] end).
        by rewrite Hhits_init.
      * simpl. rewrite app_nil_r.
        change (merge_target_row upsert merge_keys payload o)
          with (match hits merge_keys payload o with s :: _ => [s] | [] => [o] end).
        rewrite Hhits_o.
        rewrite filter_cons_False.
        2:{ intros Hnone.
            assert (existsb (λ t, on_columns merge_keys o' t) T = true) as Hex;
              [|congruence].
            apply existsb_exists. exists o. split; [by apply list_elem_of_In|done]. }
        rewrite filter_all; [done|]. intros s Hs.
        apply not_true_is_false. intros Hex.
        apply existsb_exists in Hex as (t & Ht & Hst).
        apply list_elem_of_In in Ht. by rewrite (Hlead_new s t Hs Ht) in Hst.
    + intros r [->|Hr]%elem_of_cons; [by apply table_effs|].
      apply Hbatch_elem in Hr as [_ Hr]. by apply batch_effs.
    + replace (init ++ o :: (ordered (asc effective_ts) (filter (λ r, K r = k) B))) with ((init ++ [o]) ++ (ordered (asc effective_ts) (filter (λ r, K r = k) B)))
        by (by rewrite <- app_assoc).
      apply StronglySorted_app. split; [|done].
      intros x b Hx [Hkb Hb]%Hbatch_elem. destruct (Hold x Hx) as [Hkx HxT].
      apply batch_later; [done..|congruence].
    + intros _. exists o. split; [done|].
      destruct (table_tiles k HkT) as [Hmeets _]. by rewrite Hhist in Hmeets.
    + intros t Ht Hkt.
      assert (t ∈ init ++ [o]) as Hin
        by (rewrite <- Hperm; by apply list_elem_of_filter).
      apply elem_of_app in Hin as [Hin|Hin].
      * rewrite Hhits_init by done. simpl. lia.
      * apply list_elem_of_singleton in Hin as ->. by rewrite Hhits_o.
  - (* the key is new *)
    assert (filter (λ r, K r = k) T = []) as ->.
    { apply filter_none. intros t Ht Hkt. apply HkT. rewrite <- Hkt.
      by apply list_elem_of_fmap_2. }
    exists [], (ordered (asc effective_ts) (filter (λ r, K r = k) B)). simpl.
    split; [|split; [done|split; [|split; [|split; [done|split; [done|]]]]]].
    + rewrite filter_all; [done|]. intros s Hs.
      apply not_true_is_false. intros Hex.
      apply existsb_exists in Hex as (t & Ht & Hst).
      apply list_elem_of_In in Ht. by rewrite (Hlead_new s t Hs Ht) in Hst.
    + intros r [_ Hr]%Hbatch_elem. by apply batch_effs.
    + intros c Hc. by apply not_elem_of_nil in Hc.
    + intros t Ht Hkt. exfalso. apply HkT. rewrite <- Hkt.
      by apply list_elem_of_fmap_2.
Qed.

Lemma merge_not_ambiguous : ambiguous merge_keys payload T = false.
Proof.
  unfold ambiguous. apply not_true_is_false. intros Hex.
  apply existsb_exists in Hex as (t & Ht & Hmany).
  apply list_elem_of_In in Ht. apply bool_decide_eq_true in Hmany.
  destruct (decide (K t ∈ K <$> B)) as [Hk|Hk].
  - destruct (merged_of_batch_key (K t) Hk)
      as (_ & _ & _ & _ & _ & _ & _ & _ & Hone).
    specialize (Hone t Ht eq_refl). lia.
  - assert (filter (λ r, K r = K t) payload = []) as Hnone.
    { rewrite payload_of_key, updated_rows_absent by done.
      rewrite (filter_none _ B); [done|].
      intros b Hb Hkb. apply Hk. rewrite <- Hkb. by apply list_elem_of_fmap_2. }
    rewrite hits_of_key, Hnone in Hmany. simpl in Hmany. lia.
Qed.

(** The table after the merge tiles. *)
Lemma merged_tiles : tiles keys effective_ts end_ts merged.
Proof.
  intros k Hk. destruct (decide (k ∈ K <$> B)) as [HkB|HkB].
  - destruct (merged_of_batch_key k HkB)
      as (init & X & Hperm & HX & HXeff & Hclosed & Hasc & Hjoin & _).
    assert (history keys effective_ts k merged
            = init ++ lead_over effective_ts end_ts X) as ->.
    { unfold history. apply ordered_ascending; [|done].
      apply ascending_effs. rewrite fmap_app, lead_over_effs, <- fmap_app.
      by apply ascending_effs. }
    assert (lead_over effective_ts end_ts X ≠ []) as Hlead by (by destruct X).
    split.
    + destruct init as [|c init]; [apply lead_over_meets|].
      destruct Hjoin as (o & Ho & Hmeets); [done|].
      apply meets_app_lead with (l1 := [o]); try done.
      * rewrite lead_over_head, Ho. done.
      * apply lead_over_meets.
    + unfold open_rows. rewrite filter_app, length_app.
      fold (open_rows end_ts init).
      fold (open_rows end_ts (lead_over effective_ts end_ts X)).
      rewrite closed_not_open by done. by rewrite lead_over_open.
  - assert (filter (λ r, K r = k) merged = filter (λ r, K r = k) T) as Hsame
      by (by apply merged_of_other_key).
    unfold history. rewrite Hsame. apply table_tiles.
    apply list_elem_of_fmap in Hk as (x & -> & Hx).
    assert (x ∈ filter (λ r, K r = K x) T) as Hin
      by (rewrite <- Hsame; by apply list_elem_of_filter).
    apply list_elem_of_filter in Hin as [_ Hin]. by apply list_elem_of_fmap_2.
Qed.
End merge.
End type2.

(** C1, as the code has it. A type-2 merge keeps invariant I1 when the
    batch extends the histories at their end: the table tiles before the
    merge, with an [effective_ts] in every row and no two rows of one key
    at one [effective_ts]; the rows of the batch hold no NULL in the key
    columns nor in [effective_ts], no two of one key share an
    [effective_ts], and each is later than every row the table has for
    its key. Then the merge succeeds and the table tiles after it: for
    every key, consecutive rows in [effective_ts] order meet, and exactly
    one row is open. *)
Theorem type2_merge_keeps_tiling (t : DeltaTable) (source : DataFrame)
    (keys : list string) (effective_ts : string) (end_ts : option string)
    (e : string) (w : Store) (loc : string) (tbl : Table) :
  provided end_ts = Some e →
  e ∉ keys →
  e ≠ effective_ts →
  location_in w t = Some loc →
  tables w !! loc = Some tbl →
  uncontended w →
  tiles keys effective_ts e (rows tbl) →
  Forall (λ r, col effective_ts r ≠ None) (rows tbl) →
  NoDup ((λ r, (key_of keys r, col effective_ts r)) <$> rows tbl) →
  Forall (λ b, Forall (λ c, col c b ≠ None) keys ∧ col effective_ts b ≠ None)
    source →
  NoDup ((λ r, (key_of keys r, col effective_ts r)) <$> source) →
  Forall (λ b, Forall (λ r, key_of keys r = key_of keys b →
                             cell_lt (col effective_ts r) (col effective_ts b))
                 (rows tbl)) source →
  ∃ w' rs,
    scd t source keys effective_ts end_ts 2 w = (Ok t, w')
    ∧ rows_of w' t = Some rs
    ∧ tiles keys effective_ts e rs.
Proof.
  intros Hend Hkeys Heff Hloc Htbl Hfree Htiles Hteff Htnd Hbatch Hbnd Hlater.
  rewrite Forall_forall in Hteff, Hbatch, Hlater.
  assert (∀ b c, b ∈ source → c ∈ keys → col c b ≠ None) as Hbkeys.
  { intros b c Hb Hc. destruct (Hbatch b Hb) as [Hall _].
    rewrite Forall_forall in Hall. by apply Hall. }
  assert (∀ r b, r ∈ rows tbl → b ∈ source → key_of keys r = key_of keys b →
            cell_lt (col effective_ts r) (col effective_ts b)) as Hlater'.
  { intros r b Hr Hb. specialize (Hlater b Hb).
    rewrite Forall_forall in Hlater. by apply Hlater. }
  assert (∀ b, b ∈ source → col effective_ts b ≠ None) as Hbeff
    by (intros b Hb; by destruct (Hbatch b Hb)).
  eexists _, _. split; [|split].
  - unfold scd. rewrite bool_decide_true by done.
    eapply _scd2_run; try done.
    by apply merge_not_ambiguous.
  - by apply rows_of_committed.
  - by apply merged_tiles.
Qed.

Lemma type2_merge_keeps_tiling_witness :
  ∃ w' rs,
    scd (forPath "/tables/dim") [ {[ "id" := 1; "ts" := 4 ]}; {[ "id" := 2; "ts" := 1 ]} ]
      ["id"] "ts" (Some "end") 2 mid_history_store
      = (Ok (forPath "/tables/dim"), w')
    ∧ rows_of w' (forPath "/tables/dim") = Some rs
    ∧ tiles ["id"] "ts" "end" rs.
Proof.
  apply (type2_merge_keeps_tiling (forPath "/tables/dim")
           [ {[ "id" := 1; "ts" := 4 ]}; {[ "id" := 2; "ts" := 1 ]} ]
           ["id"] "ts" (Some "end") "end" mid_history_store "/tables/dim"
           mid_history_table).
  - reflexivity.
  - apply (bool_decide_unpack _). vm_compute. exact I.
  - discriminate.
  - reflexivity.
  - reflexivity.
  - unfold uncontended. simpl. discriminate.
  - apply tilesb_tiles. vm_compute. reflexivity.
  - apply (bool_decide_unpack _). vm_compute. exact I.
  - apply (bool_decide_unpack _). vm_compute. exact I.
  - apply (bool_decide_unpack _). vm_compute. exact I.
  - apply (bool_decide_unpack _). vm_compute. exact I.
  - apply (bool_decide_unpack _). vm_compute. exact I.
Defined.

(** ** What a merge leaves alone *)

Lemma toDF_Ok t w df w1 :
  toDF t w = (Ok df, w1) →
  ∃ loc tbl, location_in w t = Some loc ∧ tables w !! loc = Some tbl
    ∧ df = rows tbl
    ∧ w1 = {| tables := tables w; catalog := catalog w;
              engine_info := engine_info w; conflicts := conflicts w;
              calls := calls w ++ [call_toDF t] |}.
Proof.
  unfold toDF, table_at, location_of.
  destruct t; run_M; intros; run_cases; by eexists _, _.
Qed.

Lemma merge_Ok t source cond clauses w w' :
  merge t source cond clauses w = (Ok tt, w') →
  ∃ loc tbl, location_in w t = Some loc ∧ tables w !! loc = Some tbl
    ∧ cond ≠ []
    ∧ w' = committed w loc tbl (merge_rows clauses cond source (rows tbl))
             [call_merge t clauses].
Proof.
  unfold merge, table_at, location_of, committed.
  destruct t; run_M; intros; run_cases; eexists _, _;
    repeat split; try done;
    match goal with H : bool_decide (cond = []) = false |- _ =>
      by apply bool_decide_eq_false in H end.
Qed.

Lemma _scd2_Ok t source keys effective_ts end_ts w t' w' :
  _scd2 t source keys effective_ts end_ts w = (Ok t', w') →
  ∃ e loc tbl,
    provided end_ts = Some e ∧ location_in w t = Some loc
    ∧ tables w !! loc = Some tbl
    ∧ rows_of w' t
        = Some (merge_rows upsert (keys ++ [effective_ts])
                  (scd2_payload keys effective_ts e (rows tbl) source) (rows tbl)).
Proof.
  unfold _scd2. destruct (provided end_ts) as [e|] eqn:Hend; [|done].
  unfold mbind at 1, M_bind at 1.
  destruct (toDF t w) as [[df|err] w1] eqn:HtoDF; [|done].
  apply toDF_Ok in HtoDF as (loc & tbl & Hloc & Htbl & -> & ->).
  unfold mbind, M_bind.
  destruct (merge _ _ _ _ _) as [[[]|err] w2] eqn:Hmerge; [|done].
  intros [= _ <-].
  apply merge_Ok in Hmerge as (loc' & tbl' & Hloc' & Htbl' & _ & ->).
  assert (loc' = loc) as -> by (destruct t; simpl in *; congruence).
  simpl in Htbl'. assert (tbl' = tbl) as -> by congruence.
  exists e, loc, tbl. repeat split; try done.
  by apply rows_of_committed.
Qed.

Lemma _scd1_Ok t source keys effective_ts w t' w' :
  _scd1 t source keys effective_ts w = (Ok t', w') →
  ∃ loc tbl,
    location_in w t = Some loc ∧ tables w !! loc = Some tbl ∧ keys ≠ []
    ∧ rows_of w' t
        = Some (merge_rows upsert keys (scd1_payload keys effective_ts source)
                  (rows tbl)).
Proof.
  unfold _scd1, mbind, M_bind.
  destruct (merge _ _ _ _ _) as [[[]|err] w2] eqn:Hmerge; [|done].
  intros [= _ <-].
  apply merge_Ok in Hmerge as (loc & tbl & Hloc & Htbl & Hkeys & ->).
  exists loc, tbl. repeat split; try done. by apply rows_of_committed.
Qed.

Lemma rows_of_Some w t loc tbl :
  location_in w t = Some loc → tables w !! loc = Some tbl →
  rows_of w t = Some (rows tbl).
Proof. intros Hloc Htbl. unfold rows_of. rewrite Hloc. simpl. by rewrite Htbl. Qed.

(** An upsert on key columns leaves the rows of a key alone that no row
    of the payload has. *)
Lemma upsert_other_key keys cond payload target k :
  (∀ s t, on_columns cond s t = true → key_of keys s = key_of keys t) →
  (∀ p, p ∈ payload → key_of keys p ≠ k) →
  filter (λ r, key_of keys r = k) (merge_rows upsert cond payload target)
  = filter (λ r, key_of keys r = k) target.
Proof.
  intros Hcond Hnone. unfold merge_rows. rewrite filter_app. simpl.
  rewrite (filter_none _ (not_matched cond payload target)).
  2:{ intros p Hp. apply list_elem_of_filter in Hp as [_ Hp]. by apply Hnone. }
  rewrite app_nil_r.
  rewrite (filter_bind_same_key (key_of keys)).
  - apply bind_fixed. intros t Ht. apply list_elem_of_filter in Ht as [Hkt _].
    rewrite upsert_target_row.
    destruct (hits cond payload t) as [|s l] eqn:Hhits; [done|].
    assert (s ∈ hits cond payload t) as Hs by (rewrite Hhits; left).
    apply list_elem_of_filter in Hs as [Hst Hs].
    apply Hcond in Hst. apply Hnone in Hs. congruence.
  - intros t x _. rewrite upsert_target_row.
    destruct (hits cond payload t) as [|s l] eqn:Hhits.
    + by intros ->%list_elem_of_singleton.
    + intros ->%list_elem_of_singleton.
      assert (s ∈ hits cond payload t) as Hs by (rewrite Hhits; left).
      apply list_elem_of_filter in Hs as [Hst _]. by apply Hcond.
Qed.

(** X7. A type-2 merge leaves the rows of every key alone that the batch
    does not mention: the rows of such a key are, in number and content,
    the rows the table had. *)
Theorem type2_merge_leaves_other_keys (t : DeltaTable) (source : DataFrame)
    (keys : list string) (effective_ts : string) (end_ts : option string)
    (e : string) (w w' : Store) (target : DataFrame) :
  provided end_ts = Some e →
  e ∉ keys →
  e ≠ effective_ts →
  rows_of w t = Some target →
  scd t source keys effective_ts end_ts 2 w = (Ok t, w') →
  ∃ merged, rows_of w' t = Some merged
    ∧ ∀ k, k ∉ key_of keys <$> source →
        filter (λ r, key_of keys r = k) merged
        = filter (λ r, key_of keys r = k) target.
Proof.
  intros Hend Hkeys Heff Hrows. unfold scd. rewrite bool_decide_true by done.
  intros Hrun. apply _scd2_Ok in Hrun as (e' & loc & tbl & Hend' & Hloc & Htbl & Hrows').
  assert (e' = e) as -> by congruence.
  rewrite (rows_of_Some w t loc tbl) in Hrows by done. injection Hrows as <-.
  eexists. split; [done|]. intros k Hk. by apply merged_of_other_key.
Qed.

Lemma type2_merge_leaves_other_keys_witness :
  ∃ merged,
    rows_of (scd (forPath "/tables/dim") [ {[ "id" := 2; "ts" := 5 ]} ] ["id"] "ts"
               (Some "end") 2 mid_history_store).2 (forPath "/tables/dim")
      = Some merged
    ∧ ∀ k, k ∉ key_of ["id"] <$> [ ({[ "id" := 2; "ts" := 5 ]} : Row) ] →
        filter (λ r, key_of ["id"] r = k) merged
        = filter (λ r, key_of ["id"] r = k) (rows mid_history_table).
Proof.
  apply (type2_merge_leaves_other_keys (forPath "/tables/dim")
           [ {[ "id" := 2; "ts" := 5 ]} ] ["id"] "ts" (Some "end") "end"
           mid_history_store).
  - reflexivity.
  - apply (bool_decide_unpack _). vm_compute. exact I.
  - discriminate.
  - reflexivity.
  - vm_compute. reflexivity.
Defined.

Lemma NoDup_fmap_eq {A B} (f : A → B) (l : list A) x y :
  NoDup (f <$> l) → x ∈ l → y ∈ l → f x = f y → x = y.
Proof.
  induction l as [|a l IH]; intros Hnd Hx Hy Hf.
  { by apply not_elem_of_nil in Hx. }
  rewrite fmap_cons, NoDup_cons in Hnd. destruct Hnd as [Ha Hnd].
  apply elem_of_cons in Hx as [->|Hx]; apply elem_of_cons in Hy as [->|Hy]; auto.
  - exfalso. apply Ha. rewrite Hf. by apply list_elem_of_fmap_2.
  - exfalso. apply Ha. rewrite <- Hf. by apply list_elem_of_fmap_2.
Qed.


(** ** Bootstrap *)

(** X11. [bootstrap_scd2] raises its [ValueError] exactly when neither a path
    nor a table identifier is provided, and has then made no call to the
    store; in every other call it succeeds and returns a handle, by name
    when an identifier is provided and by path otherwise: it never
    returns [None]. *)
Theorem bootstrap_scd2_needs_path_or_identifier (source_df : DataFrame)
    (keys : list string) (effective_ts end_ts : string)
    (table_properties : option (list (string * string)))
    (partition_columns : list string)
    (comment path table_identifier : option string) (w : Store) :
  match provided path, provided table_identifier with
  | None, None =>
      ∃ msg, bootstrap_scd2 source_df keys effective_ts end_ts table_properties
               partition_columns comment path table_identifier w
             = (Raise (ValueError msg), w)
  | p, n =>
      ∃ w', bootstrap_scd2 source_df keys effective_ts end_ts table_properties
              partition_columns comment path table_identifier w
            = (Ok (Some (match n with
                         | Some n => forName n
                         | None => forPath (default "" p)
                         end)), w')
        ∧ calls w' ≠ calls w
  end.
Proof.
  unfold bootstrap_scd2.
  destruct (provided path) as [p|] eqn:Hp;
    destruct (provided table_identifier) as [n|] eqn:Hn.
  - unfold createOrReplace, saveAsTable. run_M.
    rewrite lookup_insert_eq. simpl. rewrite lookup_insert_eq.
    eexists. split; [done|]. simpl. intros Heq.
    apply (f_equal length) in Heq. rewrite !length_app in Heq. simpl in Heq. lia.
  - unfold createOrReplace, save. run_M. rewrite lookup_insert_eq.
    eexists. split; [done|]. simpl. intros Heq.
    apply (f_equal length) in Heq. rewrite !length_app in Heq. simpl in Heq. lia.
  - unfold createOrReplace, saveAsTable. run_M.
    rewrite lookup_insert_eq. simpl. rewrite lookup_insert_eq.
    eexists. split; [done|]. simpl. intros Heq.
    apply (f_equal length) in Heq. rewrite !length_app in Heq. simpl in Heq. lia.
  - by eexists.
Qed.

(** X12. The table [bootstrap_scd2] writes satisfies invariant I1, when every
    row of the source has an [effective_ts] and no two rows of one key
    share one: for every key, consecutive rows meet and exactly one row
    is open. *)
Theorem bootstrap_scd2_tiles (source_df : DataFrame)
    (keys : list string) (effective_ts end_ts : string)
    (table_properties : option (list (string * string)))
    (partition_columns : list string)
    (comment path table_identifier : option string) (w : Store) :
  end_ts ∉ keys →
  end_ts ≠ effective_ts →
  is_Some (provided path) ∨ is_Some (provided table_identifier) →
  Forall (λ r, col effective_ts r ≠ None) source_df →
  NoDup ((λ r, (key_of keys r, col effective_ts r)) <$> source_df) →
  ∃ h w' written,
    bootstrap_scd2 source_df keys effective_ts end_ts table_properties
      partition_columns comment path table_identifier w = (Ok (Some h), w')
    ∧ rows_of w' h = Some written
    ∧ tiles keys effective_ts end_ts written.
Proof.
  intros Hkeys Heff Hgiven Hnn Hnd.
  destruct (bootstrap_scd2_rows source_df keys effective_ts end_ts table_properties
              partition_columns comment path table_identifier w Hgiven)
    as (h & w' & Hrun & Hrows).
  exists h, w'. eexists. split; [done|]. split; [done|].
  intros k Hk. unfold history.
  assert (filter (λ r, key_of keys r = k)
            (bootstrap_payload keys effective_ts end_ts source_df)
          = lead_over effective_ts end_ts (history keys effective_ts k source_df))
    as Hgroup by (by apply lead_payload_of_key).
  rewrite Hgroup.
  pose proof (history_ascending keys effective_ts k source_df Hnd) as Hasc.
  assert (∀ r, r ∈ history keys effective_ts k source_df →
            col effective_ts r ≠ None) as Hnn'.
  { intros r [_ Hr]%history_elem. rewrite Forall_forall in Hnn. by apply Hnn. }
  assert (history keys effective_ts k source_df ≠ []) as Hne.
  { apply list_elem_of_fmap in Hk as (x & Hkx & Hx). intros Hnil.
    assert (x ∈ filter (λ r, key_of keys r = k)
              (bootstrap_payload keys effective_ts end_ts source_df)) as Hin
      by (by apply list_elem_of_filter).
    rewrite Hgroup, Hnil in Hin. by apply not_elem_of_nil in Hin. }
  rewrite (ordered_ascending effective_ts _
             (lead_over effective_ts end_ts (history keys effective_ts k source_df))).
  - split; [by apply lead_over_meets|by apply lead_over_open].
  - apply ascending_effs. rewrite lead_over_effs by done. by apply ascending_effs.
  - done.
Qed.

Lemma bootstrap_scd2_tiles_witness :
  ∃ h w' written,
    bootstrap_scd2 scenario_A_incoming ["id"] "ts" "end" None [] None
      (Some "/tables/new") None described_store = (Ok (Some h), w')
    ∧ rows_of w' h = Some written
    ∧ tiles ["id"] "ts" "end" written.
Proof.
  apply (bootstrap_scd2_tiles scenario_A_incoming ["id"] "ts" "end" None [] None
           (Some "/tables/new") None described_store).
  - apply (bool_decide_unpack _). vm_compute. exact I.
  - discriminate.
  - left. simpl. by eexists.
  - apply (bool_decide_unpack _). vm_compute. exact I.
  - apply (bool_decide_unpack _). vm_compute. exact I.
Defined.

(** ** Deduplication that does not complete *)

Lemma save_exists_run path df w tbl :
  tables w !! path = Some tbl →
  save path ErrorIfExists df w =
    (Raise (AnalysisException "path already exists"),
     {| tables := tables w; catalog := catalog w; engine_info := engine_info w;
        conflicts := conflicts w;
        calls := calls w ++ [call_save path ErrorIfExists] |}).
Proof. intros Hold. unfold save. run_M. by rewrite Hold. Qed.

Lemma merge_refused t source cond clauses w loc tbl :
  cond ≠ [] →
  location_in w t = Some loc →
  tables w !! loc = Some tbl →
  bool_decide (whenMatchedUpdateAll ∈ clauses) && ambiguous cond source (rows tbl) = false →
  head (conflicts w) = Some true →
  merge t source cond clauses w =
    (Raise ConcurrentModification,
     {| tables := tables w; catalog := catalog w; engine_info := engine_info w;
        conflicts := tail (conflicts w);
        calls := calls w ++ [call_merge t clauses] |}).
Proof.
  intros Hcond Hloc Htbl Hamb Hconflict. unfold merge, table_at.
  rewrite bool_decide_false by done.
  destruct (conflicts w) as [|c cs] eqn:Hcs; simpl in Hconflict; simplify_eq.
  destruct t as [p|n]; simpl in Hloc; simplify_eq; unfold location_of; run_M.
  - rewrite Htbl. simpl. rewrite Hamb, Hcs. done.
  - rewrite Hloc. simpl. rewrite Htbl. simpl. rewrite Hamb, Hcs. done.
Qed.

Lemma deduplicate_used_temp_path_run `{Humanize} t temp_path keys
    tiebreaking_columns w loc tbl :
  location_in w t = Some loc →
  tables w !! loc = Some tbl →
  is_Some (tables w !! temp_path) →
  deduplicate t temp_path keys tiebreaking_columns w =
    (Raise (AnalysisException "path already exists"),
     {| tables := tables w; catalog := catalog w; engine_info := engine_info w;
        conflicts := conflicts w;
        calls := calls w ++
          [call_detail t; call_toDF t; call_save temp_path ErrorIfExists] |}).
Proof.
  intros Hloc Htbl [old Hold]. unfold deduplicate.
  erewrite bind_Ok by (by eapply detail_run).
  rewrite detail_location.
  erewrite bind_Ok by (by eapply toDF_run).
  erewrite (bind_Raise (if bool_decide (default [] tiebreaking_columns ≠ []) then _ else _)).
  2:{ case_bool_decide; by apply save_exists_run with (tbl := old). }
  simpl. by rewrite <- !app_assoc.
Qed.

(** X4. [deduplicate] writes the staged rows with the default save mode:
    when [temp_path] already holds a table, the call raises before any
    merge, and no table has changed. *)
Theorem deduplicate_refuses_used_temp_path `{Humanize} (t : DeltaTable)
    (temp_path : string) (keys : list string)
    (tiebreaking_columns : option (list string)) (w : Store) (loc : string)
    (tbl : Table) :
  location_in w t = Some loc →
  tables w !! loc = Some tbl →
  is_Some (tables w !! temp_path) →
  ∃ msg w', deduplicate t temp_path keys tiebreaking_columns w
              = (Raise (AnalysisException msg), w')
    ∧ tables w' = tables w
    ∧ merge_calls w' = merge_calls w.
Proof.
  intros Hloc Htbl Hold.
  rewrite (deduplicate_used_temp_path_run t temp_path keys tiebreaking_columns
             w loc tbl) by done.
  eexists _, _. split; [done|]. split; [done|].
  unfold merge_calls. simpl. rewrite filter_app. simpl.
  by rewrite app_nil_r.
Qed.

Lemma deduplicate_refuses_used_temp_path_witness :
  ∃ msg w', @deduplicate decimal_humanize (forPath "/tables/dim") "/tables/dim"
              ["id"] None unique_store
              = (Raise (AnalysisException msg), w')
    ∧ tables w' = tables unique_store
    ∧ merge_calls w' = merge_calls unique_store.
Proof.
  apply (@deduplicate_refuses_used_temp_path decimal_humanize
           (forPath "/tables/dim") "/tables/dim" ["id"] None unique_store
           "/tables/dim" unique_table).
  - reflexivity.
  - reflexivity.
  - by eexists.
Defined.

(** X5. The three steps of [deduplicate] are not one transaction. When the
    store refuses the delete, the call raises the conflict with the
    survivors staged at [temp_path] and the target as it was, and the
    append is never made; a second call with the same [temp_path] then
    fails, because the path is taken. *)
Theorem deduplicate_conflict_leaves_staging `{Humanize} (t : DeltaTable)
    (temp_path : string) (keys : list string)
    (tiebreaking_columns : option (list string)) (w : Store) (loc : string)
    (tbl : Table) :
  location_in w t = Some loc →
  tables w !! loc = Some tbl →
  tables w !! temp_path = None →
  keys ≠ [] →
  head (conflicts w) = Some true →
  ∃ w', deduplicate t temp_path keys tiebreaking_columns w
          = (Raise ConcurrentModification, w')
    ∧ rows_of w' t = Some (rows tbl)
    ∧ rows <$> tables w' !! temp_path
        = Some (staged_rows keys (default [] tiebreaking_columns) (rows tbl))
    ∧ calls w' = calls w ++
        [call_detail t; call_toDF t; call_save temp_path ErrorIfExists;
         call_merge t [whenMatchedDelete]]
    ∧ ∃ msg w'', deduplicate t temp_path keys tiebreaking_columns w'
                   = (Raise (AnalysisException msg), w'')
        ∧ tables w'' = tables w'.
Proof.
  intros Hloc Htbl Hnew Hkeys Hconflict.
  assert (temp_path ≠ loc) as Hne by (intros ->; congruence).
  unfold deduplicate at 1.
  erewrite bind_Ok by (by eapply detail_run).
  rewrite detail_location.
  erewrite bind_Ok by (by eapply toDF_run).
  fold (dupes_of keys (rows tbl)).
  set (staged := staged_rows keys (default [] tiebreaking_columns) (rows tbl)).
  erewrite (bind_Ok (if bool_decide (default [] tiebreaking_columns ≠ []) then _ else _)).
  2:{ instantiate (2 := tt).
      transitivity (save temp_path ErrorIfExists staged
        {| tables := tables w; catalog := catalog w; engine_info := engine_info w;
           conflicts := conflicts w;
           calls := (calls w ++ [call_detail t]) ++ [call_toDF t] |}).
      - unfold staged, staged_rows. by case_bool_decide.
      - by apply save_new_run. }
  erewrite bind_Raise.
  2:{ eapply merge_refused with (loc := loc) (tbl := tbl); simpl; try done.
      by rewrite lookup_insert_ne. }
  eexists. split; [done|]. split; [|split; [|split]].
  - unfold rows_of.
    match goal with |- context [location_in ?w' t] =>
      assert (location_in w' t = Some loc) as -> by (by destruct t) end.
    simpl. by rewrite lookup_insert_ne, Htbl.
  - simpl. by rewrite lookup_insert_eq.
  - simpl. by rewrite <- !app_assoc.
  - match goal with |- context [deduplicate _ _ _ _ ?w'] =>
      rewrite (deduplicate_used_temp_path_run t temp_path keys
                 tiebreaking_columns w' loc tbl)
    end.
    + by eexists _, _.
    + by destruct t.
    + simpl. by rewrite lookup_insert_ne.
    + simpl. rewrite lookup_insert_eq. by eexists.
Qed.

Lemma deduplicate_conflict_leaves_staging_witness :
  let w := with_conflicts [true] null_key_store in
  ∃ w', @deduplicate decimal_humanize (forPath "/tables/dim") "/tmp/staging" ["id"]
          (Some ["ts"]) w = (Raise ConcurrentModification, w')
    ∧ rows_of w' (forPath "/tables/dim") = Some (rows null_key_table)
    ∧ rows <$> tables w' !! "/tmp/staging"
        = Some (staged_rows ["id"] (default [] (Some ["ts"])) (rows null_key_table))
    ∧ calls w' = calls w ++
        [call_detail (forPath "/tables/dim"); call_toDF (forPath "/tables/dim");
         call_save "/tmp/staging" ErrorIfExists;
         call_merge (forPath "/tables/dim") [whenMatchedDelete]]
    ∧ ∃ msg w'', @deduplicate decimal_humanize (forPath "/tables/dim") "/tmp/staging"
                   ["id"] (Some ["ts"]) w'
                   = (Raise (AnalysisException msg), w'')
        ∧ tables w'' = tables w'.
Proof.
  intros w.
  apply (@deduplicate_conflict_leaves_staging decimal_humanize
           (forPath "/tables/dim") "/tmp/staging" ["id"] (Some ["ts"]) w
           "/tables/dim" null_key_table).
  - reflexivity.
  - reflexivity.
  - reflexivity.
  - discriminate.
  - reflexivity.
Defined.

(** ** Deduplication of tables without NULL keys *)

Lemma partition_pick_of_key keys (pick : DataFrame → DataFrame) (df : DataFrame) k :
  (∀ part x, x ∈ pick part → x ∈ part) →
  pick [] = [] →
  filter (λ r, key_of keys r = k) (partitionBy keys df ≫= pick)
  = pick (filter (λ r, key_of keys r = k) df).
Proof.
  intros Hpick Hnil. unfold partitionBy.
  set (h := λ k', pick (filter (λ r, key_of keys r = k') df)).
  assert (∀ ks, ((λ k', filter (λ r, key_of keys r = k') df) <$> ks) ≫= pick
                = ks ≫= h) as ->.
  { induction ks as [|k' ks IH]; [done|].
    by rewrite fmap_cons, !bind_cons, IH. }
  rewrite (filter_bind_keys (key_of keys) h k); [|apply NoDup_remove_dups|].
  - case_decide as Hk; [done|]. unfold h.
    rewrite (filter_none _ df); [done|].
    intros r Hr Hkr. apply Hk. rewrite elem_of_remove_dups, <- Hkr.
    by apply list_elem_of_fmap_2.
  - intros k' x Hx. apply Hpick in Hx.
    by apply list_elem_of_filter in Hx as [? _].
Qed.

Lemma filter_agree {A} (P Q : A → Prop) `{∀ x, Decision (P x)}
    `{∀ x, Decision (Q x)} (l : list A) :
  (∀ x, x ∈ l → P x ↔ Q x) → filter P l = filter Q l.
Proof.
  induction l as [|x l IH]; intros HPQ; [done|].
  rewrite !filter_cons, IH by (intros y Hy; apply HPQ; by right).
  destruct (decide (P x)) as [HP|HP], (decide (Q x)) as [HQ|HQ]; try done.
  - destruct HQ. by apply (HPQ x); [left|].
  - destruct HP. by apply (HPQ x); [left|].
Qed.

Lemma more_than_one_elem part x : x ∈ more_than_one part → x ∈ part.
Proof. unfold more_than_one. case_bool_decide; [done|]. by intros ?%not_elem_of_nil. Qed.

Lemma dupes_of_key keys df k :
  filter (λ r, key_of keys r = k) (dupes_of keys df)
  = more_than_one (filter (λ r, key_of keys r = k) df).
Proof.
  unfold dupes_of, over_partition.
  apply partition_pick_of_key; [apply more_than_one_elem|done].
Qed.

Lemma dupes_of_elem keys df x : x ∈ dupes_of keys df → x ∈ df.
Proof.
  intros Hx.
  assert (x ∈ filter (λ r, key_of keys r = key_of keys x) (dupes_of keys df)) as Hin
    by (by apply list_elem_of_filter).
  rewrite dupes_of_key in Hin. apply more_than_one_elem in Hin.
  by apply list_elem_of_filter in Hin as [_ ?].
Qed.

Lemma delete_matched_rows cond source target :
  merge_rows [whenMatchedDelete] cond source target
  = filter (λ t, hits cond source t = []) target.
Proof.
  unfold merge_rows. simpl. rewrite app_nil_r.
  induction target as [|t target IH]; [done|].
  rewrite bind_cons, IH, filter_cons.
  unfold merge_target_row. simpl.
  destruct (hits cond source t); by case_decide.
Qed.

Lemma on_columns_ext cols s s' t :
  (∀ c, c ∈ cols → col c s = col c s') →
  on_columns cols s t = on_columns cols s' t.
Proof.
  intros Hsame. unfold on_columns. induction cols as [|c cols IH]; [done|].
  simpl. rewrite (Hsame c) by left. f_equal. apply IH.
  intros c' Hc'. apply Hsame. by right.
Qed.

Lemma select_key_columns (keys : list string) (r : Row) c :
  c ∈ keys → col c (filter (λ kv, kv.1 ∈ keys) r) = col c r.
Proof.
  intros Hc. unfold col. rewrite map_lookup_filter.
  destruct (r !! c) as [z|]; [|done]. simpl. by rewrite option_guard_True.
Qed.

(** The delete of [deduplicate] reaches the rows of the duplicated keys,
    when their key columns hold no NULL. *)
Lemma hits_of_dupes keys df t :
  (∀ c, c ∈ keys → col c t ≠ None) →
  hits keys (select_distinct keys (dupes_of keys df)) t = []
  ↔ filter (λ r, key_of keys r = key_of keys t) (dupes_of keys df) = [].
Proof.
  intros Hnn. unfold hits, select_distinct. split.
  - intros Hnone. apply filter_none. intros d Hd Hkd.
    eapply (filter_nil_not_elem_of _ _ (filter (λ kv, kv.1 ∈ keys) d)) in Hnone.
    + apply Hnone. rewrite elem_of_remove_dups. by apply list_elem_of_fmap_2.
    + rewrite (on_columns_ext keys _ d) by (intros; by apply select_key_columns).
      by apply on_columns_same_key.
  - intros Hnone. apply filter_none. intros d' Hd' Hmatch.
    rewrite elem_of_remove_dups in Hd'.
    apply list_elem_of_fmap in Hd' as (d & -> & Hd).
    rewrite (on_columns_ext keys _ d) in Hmatch
      by (intros; by apply select_key_columns).
    apply on_columns_key_of in Hmatch.
    assert (d ∈ filter (λ r, key_of keys r = key_of keys t) (dupes_of keys df)) as Hin
      by (by apply list_elem_of_filter).
    rewrite Hnone in Hin. by apply not_elem_of_nil in Hin.
Qed.

(** Which row [deduplicate] keeps of a group of duplicates. *)
Definition survivor (tiebreaking_columns : list string) (part : DataFrame)
    : DataFrame :=
  if bool_decide (tiebreaking_columns ≠ []) then
    first_row (ordered (desc_by tiebreaking_columns) part)
  else first_row part.

Lemma survivor_elem tiebreaking_columns part x :
  x ∈ survivor tiebreaking_columns part → x ∈ part.
Proof.
  unfold survivor, first_row, ordered. case_bool_decide.
  - intros Hx%subseteq_take. by rewrite merge_sort_Permutation in Hx.
  - apply subseteq_take.
Qed.

Lemma staged_rows_of_key keys tiebreaking_columns df k :
  filter (λ r, key_of keys r = k) (staged_rows keys tiebreaking_columns df)
  = survivor tiebreaking_columns
      (more_than_one (filter (λ r, key_of keys r = k) df)).
Proof.
  rewrite <- dupes_of_key.
  rewrite <- (partition_pick_of_key keys (survivor tiebreaking_columns)).
  - unfold staged_rows, survivor, over, drop_duplicates. by case_bool_decide.
  - apply survivor_elem.
  - unfold survivor. by case_bool_decide.
Qed.

(** The rows of one key after deduplication: the survivor when the key
    had duplicates, the row as it was otherwise. *)
Lemma deduplicated_of_key keys tiebreaking_columns df k :
  Forall (λ r, Forall (λ c, col c r ≠ None) keys) df →
  filter (λ r, key_of keys r = k) (deduplicated keys tiebreaking_columns df)
  = if bool_decide (1 < length (filter (λ r, key_of keys r = k) df))%nat
    then survivor tiebreaking_columns (filter (λ r, key_of keys r = k) df)
    else filter (λ r, key_of keys r = k) df.
Proof.
  intros Hnn. rewrite Forall_forall in Hnn.
  unfold deduplicated. rewrite filter_app, staged_rows_of_key, delete_matched_rows.
  rewrite filter_swap.
  assert (filter (λ t, hits keys (select_distinct keys (dupes_of keys df)) t = [])
            (filter (λ r, key_of keys r = k) df)
          = filter (λ t, more_than_one (filter (λ r, key_of keys r = k) df) = [])
              (filter (λ r, key_of keys r = k) df)) as ->.
  { apply filter_agree. intros t Ht.
    apply list_elem_of_filter in Ht as [Hkt Ht].
    rewrite hits_of_dupes, dupes_of_key, Hkt; [done|].
    intros c Hc. specialize (Hnn t Ht). rewrite Forall_forall in Hnn. by apply Hnn. }
  unfold more_than_one. case_bool_decide as Hdup.
  - rewrite filter_none; [done|]. intros t Ht Hnil. rewrite Hnil in Ht.
    by apply not_elem_of_nil in Ht.
  - rewrite filter_all by done. unfold survivor, first_row, ordered.
    case_bool_decide; by rewrite <- (app_nil_r (filter _ df)) at 2.
Qed.

Lemma deduplicated_of_unique_key keys tiebreaking_columns df k :
  (length (filter (λ r, key_of keys r = k) df) ≤ 1)%nat →
  filter (λ r, key_of keys r = k) (deduplicated keys tiebreaking_columns df)
  = filter (λ r, key_of keys r = k) df.
Proof.
  intros Hone. unfold deduplicated.
  rewrite filter_app, staged_rows_of_key, delete_matched_rows, filter_swap.
  assert (more_than_one (filter (λ r, key_of keys r = k) df) = []) as Hnone.
  { unfold more_than_one. case_bool_decide; [lia|done]. }
  rewrite Hnone, filter_all.
  - unfold survivor, first_row, ordered.
    case_bool_decide; by rewrite <- (app_nil_r (filter _ df)) at 2.
  - intros t Ht. apply list_elem_of_filter in Ht as [Hkt Ht].
    unfold hits, select_distinct. apply filter_none. intros d' Hd' Hmatch.
    rewrite elem_of_remove_dups in Hd'.
    destruct (list_elem_of_fmap_1 _ _ _ Hd') as (d & Hdd & Hd).
    rewrite Hdd, (on_columns_ext keys _ d) in Hmatch
      by (intros; by apply select_key_columns).
    apply on_columns_key_of in Hmatch.
    assert (d ∈ filter (λ r, key_of keys r = k) (dupes_of keys df)) as Hin
      by (apply list_elem_of_filter; split; [congruence|done]).
    rewrite dupes_of_key, Hnone in Hin. by apply not_elem_of_nil in Hin.
Qed.

Lemma deduplicate_rows_run `{Humanize} t temp_path keys tiebreaking_columns w loc tbl :
  location_in w t = Some loc →
  tables w !! loc = Some tbl →
  tables w !! temp_path = None →
  keys ≠ [] →
  uncontended w →
  ∃ w', deduplicate t temp_path keys tiebreaking_columns w = (Ok t, w')
    ∧ rows_of w' t
      = Some (deduplicated keys (default [] tiebreaking_columns) (rows tbl)).
Proof.
  intros Hloc Htbl Hnew Hkeys Hfree.
  destruct (deduplicate_run t temp_path keys tiebreaking_columns w loc tbl)
    as (w' & Hrun & Htables & Hcat & Hcalls); [done..|].
  exists w'. split; [done|]. unfold rows_of.
  assert (location_in w' t = Some loc) as -> by (destruct t; simpl in *; congruence).
  simpl. rewrite Htables, lookup_insert_eq. by destruct tbl.
Qed.

Lemma survivor_one tiebreaking_columns part :
  part ≠ [] → ∃ x, survivor tiebreaking_columns part = [x].
Proof.
  intros Hne. unfold survivor. case_bool_decide.
  - destruct (first_row_ordered (desc_by tiebreaking_columns) part Hne)
      as (x & Hx & _). by exists x.
  - destruct part as [|x part]; [done|]. by exists x.
Qed.

Definition duplicated_table : Table :=
  {| rows := [ {[ "id" := 0; "ts" := 1 ]}; {[ "id" := 1; "ts" := 2 ]};
               {[ "id" := 0; "ts" := 5 ]}; {[ "id" := 0; "ts" := 3 ]} ];
     info := info described_table |}.

Definition duplicated_store : Store :=
  {| tables := {[ "/tables/dim" := duplicated_table ]};
     catalog := ∅;
     engine_info := engine_info described_store;
     conflicts := []; calls := [] |}.

(** X1. On a table whose key columns hold no NULL, [deduplicate] leaves at
    most one row of every key, every row it leaves is a row the table had,
    and every key of the table keeps a row. *)
Theorem deduplicate_one_row_per_key `{Humanize} (t : DeltaTable)
    (temp_path : string) (keys : list string)
    (tiebreaking_columns : option (list string)) (w : Store) (loc : string)
    (tbl : Table) :
  location_in w t = Some loc →
  tables w !! loc = Some tbl →
  tables w !! temp_path = None →
  keys ≠ [] →
  uncontended w →
  Forall (λ r, Forall (λ c, col c r ≠ None) keys) (rows tbl) →
  ∃ w' rs, deduplicate t temp_path keys tiebreaking_columns w = (Ok t, w')
    ∧ rows_of w' t = Some rs
    ∧ (∀ k, (length (filter (λ r, key_of keys r = k) rs) ≤ 1)%nat)
    ∧ (∀ r, r ∈ rs → r ∈ rows tbl)
    ∧ (∀ x, x ∈ rows tbl → ∃ r, r ∈ rs ∧ key_of keys r = key_of keys x).
Proof.
  intros Hloc Htbl Hnew Hkeys Hfree Hnn.
  destruct (deduplicate_rows_run t temp_path keys tiebreaking_columns w loc tbl)
    as (w' & Hrun & Hrows); [done..|].
  exists w', (deduplicated keys (default [] tiebreaking_columns) (rows tbl)).
  split; [done|]. split; [done|].
  pose proof (deduplicated_of_key keys (default [] tiebreaking_columns) (rows tbl))
    as Hkey.
  split; [|split].
  - intros k. rewrite Hkey by done. case_bool_decide as Hdup; [|lia].
    destruct (survivor_one (default [] tiebreaking_columns)
                (filter (λ r, key_of keys r = k) (rows tbl))) as (x & ->);
      [|simpl; lia].
    intros Hnil. rewrite Hnil in Hdup. simpl in Hdup. lia.
  - intros r Hr.
    assert (r ∈ filter (λ r', key_of keys r' = key_of keys r)
                  (deduplicated keys (default [] tiebreaking_columns) (rows tbl)))
      as Hin by (by apply list_elem_of_filter).
    rewrite Hkey in Hin by done. case_bool_decide.
    + apply survivor_elem in Hin. by apply list_elem_of_filter in Hin as [_ ?].
    + by apply list_elem_of_filter in Hin as [_ ?].
  - intros x Hx.
    assert (x ∈ filter (λ r, key_of keys r = key_of keys x) (rows tbl)) as Hin
      by (by apply list_elem_of_filter).
    assert (∃ r, r ∈ filter (λ r, key_of keys r = key_of keys x)
                  (deduplicated keys (default [] tiebreaking_columns) (rows tbl)))
      as (r & Hr).
    { rewrite Hkey by done. case_bool_decide; [|by exists x].
      destruct (survivor_one (default [] tiebreaking_columns)
                  (filter (λ r, key_of keys r = key_of keys x) (rows tbl)))
        as (r & ->); [|exists r; by left].
      intros Hnil. rewrite Hnil in Hin. by apply not_elem_of_nil in Hin. }
    apply list_elem_of_filter in Hr as [Hkr Hr]. by exists r.
Qed.

Lemma deduplicate_one_row_per_key_witness :
  ∃ w' rs, @deduplicate decimal_humanize (forPath "/tables/dim") "/tmp/staging"
             ["id"] (Some ["ts"]) duplicated_store
           = (Ok (forPath "/tables/dim"), w')
    ∧ rows_of w' (forPath "/tables/dim") = Some rs
    ∧ (∀ k, (length (filter (λ r, key_of ["id"] r = k) rs) ≤ 1)%nat)
    ∧ (∀ r, r ∈ rs → r ∈ rows duplicated_table)
    ∧ (∀ x, x ∈ rows duplicated_table →
         ∃ r, r ∈ rs ∧ key_of ["id"] r = key_of ["id"] x).
Proof.
  apply (@deduplicate_one_row_per_key decimal_humanize (forPath "/tables/dim")
           "/tmp/staging" ["id"] (Some ["ts"]) duplicated_store "/tables/dim"
           duplicated_table).
  - reflexivity.
  - reflexivity.
  - reflexivity.
  - discriminate.
  - unfold uncontended. simpl. discriminate.
  - apply (bool_decide_unpack _). vm_compute. exact I.
Defined.

(** X2. With tiebreaking columns, the row [deduplicate] leaves of a key
    comes first in the descending order of those columns among all the
    rows the table had of that key (key columns without NULL). *)
Theorem deduplicate_keeps_greatest `{Humanize} (t : DeltaTable)
    (temp_path : string) (keys tiebreaking_columns : list string) (w : Store)
    (loc : string) (tbl : Table) :
  location_in w t = Some loc →
  tables w !! loc = Some tbl →
  tables w !! temp_path = None →
  keys ≠ [] →
  uncontended w →
  Forall (λ r, Forall (λ c, col c r ≠ None) keys) (rows tbl) →
  tiebreaking_columns ≠ [] →
  ∃ w' rs, deduplicate t temp_path keys (Some tiebreaking_columns) w = (Ok t, w')
    ∧ rows_of w' t = Some rs
    ∧ ∀ r x, r ∈ rs → x ∈ rows tbl → key_of keys x = key_of keys r →
        desc_by tiebreaking_columns r x.
Proof.
  intros Hloc Htbl Hnew Hkeys Hfree Hnn Htb.
  destruct (deduplicate_rows_run t temp_path keys (Some tiebreaking_columns) w
              loc tbl) as (w' & Hrun & Hrows); [done..|].
  simpl in Hrows.
  exists w', (deduplicated keys tiebreaking_columns (rows tbl)).
  split; [done|]. split; [done|].
  intros r x Hr Hx Hkx.
  assert (r ∈ filter (λ r', key_of keys r' = key_of keys r)
                (deduplicated keys tiebreaking_columns (rows tbl)))
    as Hin by (by apply list_elem_of_filter).
  assert (x ∈ filter (λ r', key_of keys r' = key_of keys r) (rows tbl)) as Hxin
    by (by apply list_elem_of_filter).
  rewrite deduplicated_of_key in Hin by done. case_bool_decide as Hdup.
  - unfold survivor in Hin. rewrite bool_decide_eq_true_2 in Hin by done.
    destruct (first_row_ordered (desc_by tiebreaking_columns)
                (filter (λ r', key_of keys r' = key_of keys r) (rows tbl)))
      as (x0 & Hx0 & _ & Hmax).
    { intros Hnil. rewrite Hnil in Hxin. by apply not_elem_of_nil in Hxin. }
    rewrite Hx0 in Hin. apply list_elem_of_singleton in Hin as ->.
    by apply Hmax.
  - destruct (filter (λ r', key_of keys r' = key_of keys r) (rows tbl))
      as [|a [|b rest]]; [by apply not_elem_of_nil in Hin| |simpl in Hdup; lia].
    apply list_elem_of_singleton in Hin as ->.
    apply list_elem_of_singleton in Hxin as ->.
    by destruct (total (desc_by tiebreaking_columns) a a).
Qed.

Lemma deduplicate_keeps_greatest_witness :
  ∃ w' rs, @deduplicate decimal_humanize (forPath "/tables/dim") "/tmp/staging"
             ["id"] (Some ["ts"]) duplicated_store
           = (Ok (forPath "/tables/dim"), w')
    ∧ rows_of w' (forPath "/tables/dim") = Some rs
    ∧ ∀ r x, r ∈ rs → x ∈ rows duplicated_table →
        key_of ["id"] x = key_of ["id"] r → desc_by ["ts"] r x.
Proof.
  apply (@deduplicate_keeps_greatest decimal_humanize (forPath "/tables/dim")
           "/tmp/staging" ["id"] ["ts"] duplicated_store "/tables/dim"
           duplicated_table).
  - reflexivity.
  - reflexivity.
  - reflexivity.
  - discriminate.
  - unfold uncontended. simpl. discriminate.
  - apply (bool_decide_unpack _). vm_compute. exact I.
  - discriminate.
Defined.

(** X3. [deduplicate] leaves the rows of a key that occurs in one row only
    as they are, whatever the other keys hold (NULL keys included). *)
Theorem deduplicate_keeps_single_rows `{Humanize} (t : DeltaTable)
    (temp_path : string) (keys : list string)
    (tiebreaking_columns : option (list string)) (w : Store) (loc : string)
    (tbl : Table) :
  location_in w t = Some loc →
  tables w !! loc = Some tbl →
  tables w !! temp_path = None →
  keys ≠ [] →
  uncontended w →
  ∃ w' rs, deduplicate t temp_path keys tiebreaking_columns w = (Ok t, w')
    ∧ rows_of w' t = Some rs
    ∧ ∀ k, (length (filter (λ r, key_of keys r = k) (rows tbl)) ≤ 1)%nat →
        filter (λ r, key_of keys r = k) rs
        = filter (λ r, key_of keys r = k) (rows tbl).
Proof.
  intros Hloc Htbl Hnew Hkeys Hfree.
  destruct (deduplicate_rows_run t temp_path keys tiebreaking_columns w loc tbl)
    as (w' & Hrun & Hrows); [done..|].
  exists w', (deduplicated keys (default [] tiebreaking_columns) (rows tbl)).
  split; [done|]. split; [done|].
  intros k Hone. by apply deduplicated_of_unique_key.
Qed.

Lemma deduplicate_keeps_single_rows_witness :
  ∃ w' rs, @deduplicate decimal_humanize (forPath "/tables/dim") "/tmp/staging"
             ["id"] None duplicated_store
           = (Ok (forPath "/tables/dim"), w')
    ∧ rows_of w' (forPath "/tables/dim") = Some rs
    ∧ ∀ k, (length (filter (λ r, key_of ["id"] r = k) (rows duplicated_table))
            ≤ 1)%nat →
        filter (λ r, key_of ["id"] r = k) rs
        = filter (λ r, key_of ["id"] r = k) (rows duplicated_table).
Proof.
  apply (@deduplicate_keeps_single_rows decimal_humanize (forPath "/tables/dim")
           "/tmp/staging" ["id"] None duplicated_store "/tables/dim"
           duplicated_table).
  - reflexivity.
  - reflexivity.
  - reflexivity.
  - discriminate.
  - unfold uncontended. simpl. discriminate.
Defined.

(** ** Merges the store refuses *)

Lemma merge_empty_condition t source clauses w :
  merge t source [] clauses w =
    (Raise (AnalysisException "empty merge condition"),
     {| tables := tables w; catalog := catalog w; engine_info := engine_info w;
        conflicts := conflicts w;
        calls := calls w ++ [call_merge t clauses] |}).
Proof. unfold merge. run_M. done. Qed.

Lemma merge_ambiguous t source cond clauses w loc tbl :
  cond ≠ [] →
  location_in w t = Some loc →
  tables w !! loc = Some tbl →
  whenMatchedUpdateAll ∈ clauses →
  ambiguous cond source (rows tbl) = true →
  merge t source cond clauses w =
    (Raise MultipleSourceRowsMatched,
     {| tables := tables w; catalog := catalog w; engine_info := engine_info w;
        conflicts := conflicts w;
        calls := calls w ++ [call_merge t clauses] |}).
Proof.
  intros Hcond Hloc Htbl Hupd Hamb. unfold merge, table_at.
  rewrite bool_decide_false by done.
  destruct t as [p|n]; simpl in Hloc; simplify_eq; unfold location_of; run_M.
  - rewrite Htbl. simpl. rewrite Hamb, bool_decide_true by done. done.
  - rewrite Hloc. simpl. rewrite Htbl. simpl.
    rewrite Hamb, bool_decide_true by done. done.
Qed.

Lemma filter_elem_length {A} (P : A → Prop) `{∀ x, Decision (P x)} (l : list A) x :
  x ∈ l → P x → (1 ≤ length (filter P l))%nat.
Proof.
  intros Hx HP.
  assert (x ∈ filter P l) as Hin by (by apply list_elem_of_filter).
  destruct (filter P l); [by apply not_elem_of_nil in Hin|simpl; lia].
Qed.

Lemma lead_over_filter_length effective_ts end_ts (P : Row → Prop)
    `{∀ r, Decision (P r)} (l : DataFrame) :
  (∀ v r, P (withColumn end_ts v r) ↔ P r) →
  length (filter P (lead_over effective_ts end_ts l)) = length (filter P l).
Proof.
  intros HP. induction l as [|r l IH]; [done|]. cbn [lead_over].
  rewrite !filter_cons.
  destruct (decide (P (withColumn end_ts _ r))) as [Hw|Hw], (decide (P r)) as [Hr|Hr];
    simpl; rewrite ?IH; try done.
  - destruct Hr. by eapply HP.
  - destruct Hw. by apply HP.
Qed.

Lemma on_columns_withColumn cols c v s t :
  c ∉ cols → on_columns cols (withColumn c v s) t = on_columns cols s t.
Proof.
  intros Hc. apply on_columns_ext. intros c' Hc'.
  unfold col, withColumn. destruct v.
  - apply lookup_insert_ne. by intros ->.
  - apply lookup_delete_ne. by intros ->.
Qed.

(** X6. Without key columns the merge condition of [deduplicate] is the
    empty string: the call stages its rows at [temp_path], the merge is
    refused, and the target is as it was. *)
Theorem deduplicate_without_keys `{Humanize} (t : DeltaTable)
    (temp_path : string) (tiebreaking_columns : option (list string))
    (w : Store) (loc : string) (tbl : Table) :
  location_in w t = Some loc →
  tables w !! loc = Some tbl →
  tables w !! temp_path = None →
  ∃ e w', deduplicate t temp_path [] tiebreaking_columns w = (Raise e, w')
    ∧ rows_of w' t = Some (rows tbl)
    ∧ rows <$> tables w' !! temp_path
        = Some (staged_rows [] (default [] tiebreaking_columns) (rows tbl))
    ∧ calls w' = calls w ++
        [call_detail t; call_toDF t; call_save temp_path ErrorIfExists;
         call_merge t [whenMatchedDelete]].
Proof.
  intros Hloc Htbl Hnew.
  assert (temp_path ≠ loc) as Hne by (intros ->; congruence).
  unfold deduplicate.
  erewrite bind_Ok by (by eapply detail_run).
  rewrite detail_location.
  erewrite bind_Ok by (by eapply toDF_run).
  fold (dupes_of [] (rows tbl)).
  set (staged := staged_rows [] (default [] tiebreaking_columns) (rows tbl)).
  erewrite (bind_Ok (if bool_decide (default [] tiebreaking_columns ≠ []) then _ else _)).
  2:{ instantiate (2 := tt).
      transitivity (save temp_path ErrorIfExists staged
        {| tables := tables w; catalog := catalog w; engine_info := engine_info w;
           conflicts := conflicts w;
           calls := (calls w ++ [call_detail t]) ++ [call_toDF t] |}).
      - unfold staged, staged_rows. by case_bool_decide.
      - by apply save_new_run. }
  erewrite bind_Raise by apply merge_empty_condition.
  eexists _, _. split; [done|]. split; [|split].
  - unfold rows_of.
    match goal with |- context [location_in ?w' t] =>
      assert (location_in w' t = Some loc) as -> by (by destruct t) end.
    simpl. by rewrite lookup_insert_ne, Htbl.
  - simpl. by rewrite lookup_insert_eq.
  - simpl. by rewrite <- !app_assoc.
Qed.

Lemma deduplicate_without_keys_witness :
  ∃ e w', @deduplicate decimal_humanize (forPath "/tables/dim") "/tmp/staging" []
            None duplicated_store = (Raise e, w')
    ∧ rows_of w' (forPath "/tables/dim") = Some (rows duplicated_table)
    ∧ rows <$> tables w' !! "/tmp/staging"
        = Some (staged_rows [] (default [] None) (rows duplicated_table))
    ∧ calls w' = calls duplicated_store ++
        [call_detail (forPath "/tables/dim"); call_toDF (forPath "/tables/dim");
         call_save "/tmp/staging" ErrorIfExists;
         call_merge (forPath "/tables/dim") [whenMatchedDelete]].
Proof.
  apply (@deduplicate_without_keys decimal_humanize (forPath "/tables/dim")
           "/tmp/staging" None duplicated_store "/tables/dim" duplicated_table).
  - reflexivity.
  - reflexivity.
  - reflexivity.
Defined.

(** X8. A type-2 merge is refused when the batch carries a row for a
    version that is open in the table (same key, same [effective_ts]):
    the open row and the batch row both go into the payload and both
    match the open row, which the store does not accept.  The table is
    as it was.  So a batch cannot be applied a second time. *)
Theorem type2_merge_refuses_open_version (t : DeltaTable) (source : DataFrame)
    (keys : list string) (effective_ts : string) (end_ts : option string)
    (e : string) (w : Store) (loc : string) (tbl : Table) (o s : Row) :
  provided end_ts = Some e →
  e ∉ keys →
  e ≠ effective_ts →
  location_in w t = Some loc →
  tables w !! loc = Some tbl →
  o ∈ rows tbl →
  isNull e o = true →
  Forall (λ c, col c o ≠ None) keys →
  col effective_ts o ≠ None →
  s ∈ source →
  key_of keys s = key_of keys o →
  col effective_ts s = col effective_ts o →
  ∃ w', scd t source keys effective_ts end_ts 2 w
          = (Raise MultipleSourceRowsMatched, w')
    ∧ tables w' = tables w
    ∧ merge_calls w' = S (merge_calls w).
Proof.
  intros Hend Hkeys Heff Hloc Htbl Ho Hopen Hnn Hnne Hs Hks Hes.
  rewrite Forall_forall in Hnn.
  unfold scd. rewrite bool_decide_true by done.
  unfold _scd2. rewrite Hend.
  erewrite bind_Ok by (by eapply toDF_run).
  fold (scd2_payload keys effective_ts e (rows tbl) source).
  erewrite bind_Raise.
  2:{ eapply merge_ambiguous with (loc := loc) (tbl := tbl); simpl; try done.
      - by destruct keys.
      - left.
      - unfold ambiguous. apply existsb_exists. exists o.
        split; [by apply list_elem_of_In|]. apply bool_decide_eq_true.
        unfold hits.
        rewrite (filter_narrow _ (λ r, key_of keys r = key_of keys o)).
        2:{ intros p [Hp _]%on_columns_merge_keys. by apply on_columns_key_of. }
        rewrite payload_of_key by done.
        rewrite lead_over_filter_length.
        2:{ intros v r. rewrite on_columns_withColumn; [done|].
            rewrite elem_of_app, list_elem_of_singleton. by intros [?|?]. }
        unfold ordered. rewrite merge_sort_Permutation, filter_app, length_app.
        assert (∀ r, key_of keys r = key_of keys o →
                  col effective_ts r = col effective_ts o →
                  on_columns (keys ++ [effective_ts]) r o = true) as Hmatch.
        { intros r Hkr Her. apply on_columns_merge_keys. split.
          - by apply on_columns_same_key.
          - rewrite Her. destruct (col effective_ts o); [|done].
            simpl. by apply bool_decide_eq_true. }
        assert (o ∈ left_semi_join keys (rows tbl) source) as Hsemi.
        { unfold left_semi_join. apply list_elem_of_filter. split; [|done].
          apply existsb_exists. exists s. split; [by apply list_elem_of_In|].
          apply on_columns_same_key; [done|]. intros c Hc.
          rewrite (key_of_col keys s o c Hks Hc). by apply Hnn. }
        pose proof (filter_elem_length
          (λ r, on_columns (keys ++ [effective_ts]) r o = true)
          (filter (λ r, key_of keys r = key_of keys o)
             (filter (λ r, isNull e r = true) (left_semi_join keys (rows tbl) source)))
          o) as H1.
        pose proof (filter_elem_length
          (λ r, on_columns (keys ++ [effective_ts]) r o = true)
          (filter (λ r, key_of keys r = key_of keys o) source) s) as H2.
        assert (1 ≤ length (filter (λ r, on_columns (keys ++ [effective_ts]) r o = true)
                   (filter (λ r, key_of keys r = key_of keys o)
                      (filter (λ r, isNull e r = true)
                         (left_semi_join keys (rows tbl) source)))))%nat
          by (apply H1; [by rewrite !list_elem_of_filter|by apply Hmatch]).
        assert (1 ≤ length (filter (λ r, on_columns (keys ++ [effective_ts]) r o = true)
                   (filter (λ r, key_of keys r = key_of keys o) source)))%nat
          by (apply H2; [by rewrite list_elem_of_filter|by apply Hmatch]).
        lia. }
  eexists. split; [done|]. split; [done|].
  unfold merge_calls. simpl. rewrite !filter_app. simpl.
  rewrite !length_app. simpl. lia.
Qed.

Definition scenario_A_store : Store :=
  {| tables := {[ "/tables/dim" :=
                    {| rows := scenario_A_table; info := info described_table |} ]};
     catalog := ∅;
     engine_info := engine_info described_store;
     conflicts := []; calls := [] |}.

Lemma type2_merge_refuses_open_version_witness :
  ∃ w', scd (forPath "/tables/dim") scenario_A_incoming ["id"] "ts" (Some "end") 2
          scenario_A_store = (Raise MultipleSourceRowsMatched, w')
    ∧ tables w' = tables scenario_A_store
    ∧ merge_calls w' = S (merge_calls scenario_A_store).
Proof.
  apply (type2_merge_refuses_open_version (forPath "/tables/dim")
           scenario_A_incoming ["id"] "ts" (Some "end") "end" scenario_A_store
           "/tables/dim"
           {| rows := scenario_A_table; info := info described_table |}
           {[ "id" := 1; "ts" := 2 ]} {[ "id" := 1; "ts" := 2 ]}).
  - reflexivity.
  - apply (bool_decide_unpack _). vm_compute. exact I.
  - discriminate.
  - reflexivity.
  - reflexivity.
  - apply (bool_decide_unpack _). vm_compute. exact I.
  - vm_compute. reflexivity.
  - apply (bool_decide_unpack _). vm_compute. exact I.
  - vm_compute. discriminate.
  - apply (bool_decide_unpack _). vm_compute. exact I.
  - vm_compute. reflexivity.
  - vm_compute. reflexivity.
Defined.

(** X10. A type-1 merge is never refused for the batch it is given: the
    batch may repeat keys and hold NULLs, one row of every key goes into
    the merge, so no row of the table is matched twice.  With the table
    in place, key columns named and no concurrent writer, the call
    succeeds after one merge. *)
Theorem type1_merge_accepts_any_batch (t : DeltaTable) (source : DataFrame)
    (keys : list string) (effective_ts : string) (end_ts : option string)
    (w : Store) (loc : string) (tbl : Table) :
  keys ≠ [] →
  location_in w t = Some loc →
  tables w !! loc = Some tbl →
  uncontended w →
  ∃ w', scd t source keys effective_ts end_ts 1 w = (Ok t, w')
    ∧ merge_calls w' = S (merge_calls w)
    ∧ ∀ r, r ∈ rows tbl →
        (length (hits keys (scd1_payload keys effective_ts source) r) ≤ 1)%nat.
Proof.
  intros Hkeys Hloc Htbl Hfree.
  assert (NoDup (key_of keys <$> scd1_payload keys effective_ts source)) as Hnd
    by (apply over_first_row_NoDup; apply _).
  unfold scd. rewrite bool_decide_false, bool_decide_true by done.
  erewrite _scd1_run by (try done; by apply not_ambiguous).
  eexists. split; [done|]. split.
  - unfold merge_calls, committed. simpl. rewrite filter_app, length_app.
    simpl. lia.
  - intros r _. by apply hits_at_most_one.
Qed.

Lemma type1_merge_accepts_any_batch_witness :
  ∃ w', scd (forPath "/tables/dim") (rows duplicated_table) ["id"] "ts" None 1
          null_key_store = (Ok (forPath "/tables/dim"), w')
    ∧ merge_calls w' = S (merge_calls null_key_store)
    ∧ ∀ r, r ∈ rows null_key_table →
        (length (hits ["id"] (scd1_payload ["id"] "ts" (rows duplicated_table)) r)
         ≤ 1)%nat.
Proof.
  apply (type1_merge_accepts_any_batch (forPath "/tables/dim")
           (rows duplicated_table) ["id"] "ts" None null_key_store "/tables/dim"
           null_key_table).
  - discriminate.
  - reflexivity.
  - reflexivity.
  - unfold uncontended. simpl. discriminate.
Defined.

(** ** [partial_update_set] *)

(** The column expressions this module builds. *)
Inductive Column :=
  | coalesce (cols : list string).

(** [partial_update_set(fields, source_alias, target_alias)]: the dict
    comprehension assigns the fields in the order of the list, a later
    assignment of a field replacing an earlier one. *)
Definition partial_update_set (fields : list string)
    (source_alias target_alias : string) : gmap string Column :=
  foldl (λ d field,
           <[field := coalesce [source_alias +:+ "." +:+ field;
                                target_alias +:+ "." +:+ field]]> d)
        ∅ fields.

Lemma partial_update_set_fold (fields : list string) (sa ta : string)
    (d : gmap string Column) (f : string) :
  foldl (λ d field,
           <[field := coalesce [sa +:+ "." +:+ field; ta +:+ "." +:+ field]]> d)
        d fields !! f
  = if decide (f ∈ fields)
    then Some (coalesce [sa +:+ "." +:+ f; ta +:+ "." +:+ f])
    else d !! f.
Proof.
  revert d. induction fields as [|g fields IH]; intros d; [done|].
  simpl. rewrite IH.
  destruct (decide (f ∈ fields)) as [Hin|Hout].
  - rewrite decide_True; [done|by right].
  - destruct (decide (f = g)) as [->|Hne].
    + rewrite decide_True by left. by rewrite lookup_insert_eq.
    + rewrite decide_False by (by intros [?|?]%elem_of_cons).
      by rewrite lookup_insert_ne.
Qed.

(** ** [get_table_zordering] *)

(** A row of [delta_table.history()], as far as this module reads it. *)
Record Commit := {
  operation : string;
  operationParameters : gmap string string
}.

(** [df.groupBy(c).count()] on a data set of one column. *)
Definition groupBy_count {A} `{EqDecision A} (l : list A) : list (A * nat) :=
  (λ k, (k, length (filter (λ x, x = k) l))) <$> remove_dups l.

(** [get_table_zordering(delta_table)], on the rows that
    [delta_table.history()] returns. *)
Definition get_table_zordering (history : list Commit)
    : list (option string * nat) :=
  groupBy_count
    ((λ c, operationParameters c !! "zOrderBy") <$>
       filter (λ c, operationParameters c !! "zOrderBy" ≠ None)
         (filter (λ c, operation c = "OPTIMIZE") history)).

Lemma groupBy_count_keys {A} `{EqDecision A} (l : list A) :
  (groupBy_count l).*1 = remove_dups l.
Proof.
  unfold groupBy_count. rewrite <- list_fmap_compose.
  induction (remove_dups l) as [|k ks IH]; [done|].
  by rewrite fmap_cons, IH.
Qed.

Lemma groupBy_count_elem {A} `{EqDecision A} (l : list A) k n :
  (k, n) ∈ groupBy_count l ↔ k ∈ l ∧ n = length (filter (λ x, x = k) l).
Proof.
  unfold groupBy_count. rewrite list_elem_of_fmap. split.
  - intros (k' & [= -> ->] & Hk). by rewrite elem_of_remove_dups in Hk.
  - intros [Hk ->]. exists k. by rewrite elem_of_remove_dups.
Qed.

Lemma filter_fmap_length {A B} (f : A → B) (P : B → Prop) `{∀ y, Decision (P y)}
    (l : list A) :
  length (filter P (f <$> l)) = length (filter (λ x, P (f x)) l).
Proof.
  induction l as [|x l IH]; [done|].
  rewrite fmap_cons, !filter_cons. destruct (decide (P (f x))); simpl; by rewrite IH.
Qed.

(** X13. [partial_update_set] has an entry for exactly the listed fields,
    whatever their order and however often a field is listed, and the
    entry of a field takes the source's column before the target's. *)
Theorem partial_update_set_lookup (fields : list string)
    (source_alias target_alias : string) (f : string) :
  partial_update_set fields source_alias target_alias !! f
  = if decide (f ∈ fields)
    then Some (coalesce [source_alias +:+ "." +:+ f; target_alias +:+ "." +:+ f])
    else None.
Proof.
  unfold partial_update_set. rewrite partial_update_set_fold.
  by destruct (decide (f ∈ fields)).
Qed.

(** X14. [get_table_zordering] returns one row for every z-ordering that
    an OPTIMIZE commit of the history was run with, and the count of a
    row is the number of those commits; commits of other operations and
    commits without the [zOrderBy] parameter count nowhere. *)
Theorem get_table_zordering_counts (history : list Commit) :
  NoDup (get_table_zordering history).*1
  ∧ ∀ z n, (z, n) ∈ get_table_zordering history ↔
      z ≠ None ∧ (0 < n)%nat
      ∧ n = length (filter (λ c, operation c = "OPTIMIZE"
                                 ∧ operationParameters c !! "zOrderBy" = z) history).
Proof.
  unfold get_table_zordering. split.
  - rewrite groupBy_count_keys. apply NoDup_remove_dups.
  - intros z n. rewrite groupBy_count_elem, filter_fmap_length.
    assert (length (filter (λ c, operationParameters c !! "zOrderBy" = z)
                      (filter (λ c, operationParameters c !! "zOrderBy" ≠ None)
                         (filter (λ c, operation c = "OPTIMIZE") history)))
            = if decide (z = None) then 0%nat
              else length (filter (λ c, operation c = "OPTIMIZE"
                                    ∧ operationParameters c !! "zOrderBy" = z)
                             history)) as ->.
    { destruct (decide (z = None)) as [->|Hz].
      - rewrite filter_none; [done|].
        intros c Hc. by apply list_elem_of_filter in Hc as [? _].
      - f_equal. induction history as [|c h IH]; [done|].
        rewrite (filter_cons (λ c, operation c = "OPTIMIZE")).
        rewrite (filter_cons (λ c, operation c = "OPTIMIZE" ∧ _)).
        destruct (decide (operation c = "OPTIMIZE")) as [Hop|Hop].
        + rewrite (filter_cons (λ c, _ ≠ None)).
          destruct (decide (operationParameters c !! "zOrderBy" ≠ None)) as [Hc|Hc].
          * rewrite filter_cons, IH.
            destruct (decide (operationParameters c !! "zOrderBy" = z)).
            -- by rewrite decide_True.
            -- by rewrite decide_False by (by intros [_ ?]).
          * rewrite IH, decide_False; [done|].
            intros [_ Hcz]. apply Hc. congruence.
        + by rewrite IH, decide_False by (by intros [? _]). }
    rewrite list_elem_of_fmap. split.
    + intros [(c & -> & Hc) ->].
      apply list_elem_of_filter in Hc as [Hz Hc].
      apply list_elem_of_filter in Hc as [Hop Hc].
      rewrite decide_False by done. split; [done|]. split; [|done].
      apply (filter_elem_length _ history c); done.
    + intros (Hz & Hn & ->). rewrite decide_False by done. split; [|done].
      destruct (filter _ history) as [|c rest] eqn:Hf; [simpl in Hn; lia|].
      assert (c ∈ filter (λ c, operation c = "OPTIMIZE"
                               ∧ operationParameters c !! "zOrderBy" = z) history)
        as Hc by (rewrite Hf; left).
      apply list_elem_of_filter in Hc as [[Hop Hcz] Hc].
      exists c. split; [done|]. rewrite !list_elem_of_filter. split; [congruence|done].
Qed.

(** ** Window orders *)

(** An order of a partition that Spark may produce for [orderBy]: the
    rows of the partition, sorted by [R].  Rows that tie may come in any
    order, and the order may differ from one run to the next. *)
Definition window_order (R : relation Row) (part l : DataFrame) : Prop :=
  l ≡ₚ part ∧ StronglySorted R l.

(** The windowed computation in the words of the design: in a partition
    in window order, the [end_ts] of a row is the [effective_ts] of the
    next row, NULL for the last. *)
Definition lead_by_index (effective_ts end_ts : string) (l : DataFrame)
    : DataFrame :=
  imap (λ i r, withColumn end_ts (l !! S i ≫= col effective_ts) r) l.

Lemma ordered_window_order (R : relation Row) `{!RelDecision R}
    `{!Transitive R} `{!Total R} (part : DataFrame) :
  window_order R part (ordered R part).
Proof.
  split; [apply merge_sort_Permutation|].
  apply StronglySorted_merge_sort; apply _.
Qed.

(** Without ties there is one window order. *)
Lemma window_order_unique (R : relation Row) `{!RelDecision R}
    `{!Transitive R} `{!Total R} (part l : DataFrame) :
  (∀ x y, x ∈ part → y ∈ part → R x y → R y x → x = y) →
  window_order R part l → l = ordered R part.
Proof.
  intros Hanti [Hperm Hsorted].
  apply (StronglySorted_unique_strong R).
  - intros x y Hx Hy. rewrite Hperm in Hx. unfold ordered in Hy.
    rewrite merge_sort_Permutation in Hy. by apply Hanti.
  - done.
  - apply StronglySorted_merge_sort; apply _.
  - unfold ordered. by rewrite merge_sort_Permutation.
Qed.

Lemma window_order_head (R : relation Row) `{!Total R} (part : DataFrame) a l :
  window_order R part (a :: l) → a ∈ part ∧ ∀ x, x ∈ part → R a x.
Proof.
  intros [Hperm Hsorted]. split; [rewrite <- Hperm; left|].
  intros x Hx. rewrite <- Hperm in Hx.
  apply StronglySorted_inv in Hsorted as [_ Hall].
  rewrite Forall_forall in Hall.
  apply elem_of_cons in Hx as [->|Hx]; [|by apply Hall].
  by destruct (total R a a).
Qed.

(** When the rows that come first in a partition are all the same row,
    every window order has that row first. *)
Lemma window_order_first (R : relation Row) `{!RelDecision R}
    `{!Transitive R} `{!Total R} (part l : DataFrame) :
  (∀ p r, p ∈ part → r ∈ part →
     (∀ x, x ∈ part → R p x) → (∀ x, x ∈ part → R r x) → p = r) →
  window_order R part l → first_row l = first_row (ordered R part).
Proof.
  intros Htop Hl.
  pose proof (ordered_window_order R part) as Ho.
  destruct l as [|a l], (ordered R part) as [|b o].
  - done.
  - destruct Hl as [Hl _], Ho as [Ho _]. rewrite <- Hl in Ho.
    by apply Permutation_nil_r in Ho.
  - destruct Hl as [Hl _], Ho as [Ho _]. rewrite <- Ho in Hl.
    by apply Permutation_nil_r in Hl.
  - apply window_order_head in Hl as [Ha Hamax]; [|done].
    apply window_order_head in Ho as [Hb Hbmax]; [|done].
    unfold first_row. simpl. f_equal. by apply Htop.
Qed.

Lemma lead_over_by_index effective_ts end_ts (l : DataFrame) :
  lead_over effective_ts end_ts l = lead_by_index effective_ts end_ts l.
Proof.
  unfold lead_by_index. induction l as [|r l IH]; [done|].
  cbn [lead_over]. rewrite imap_cons, IH, head_lookup. done.
Qed.

Lemma first_row_elem part x : x ∈ first_row part → x ∈ part.
Proof. apply subseteq_take. Qed.

Lemma over_first_row_of_key keys (R : relation Row) `{!RelDecision R}
    (df : DataFrame) k :
  filter (λ r, key_of keys r = k) (over keys R first_row df)
  = first_row (ordered R (filter (λ r, key_of keys r = k) df)).
Proof.
  unfold over.
  apply (partition_pick_of_key keys (λ part, first_row (ordered R part))).
  - intros part x Hx%first_row_elem. unfold ordered in Hx.
    by rewrite merge_sort_Permutation in Hx.
  - done.
Qed.

(** ** Type-1 merges of batches without a tie at the top *)

(** C4, as the code has it. For a batch whose rows hold no NULL in the
    key columns and in which the rows of a key that carry the key's
    greatest [effective_ts] are one and the same row, a type-1 merge
    applied twice leaves the table the first application left; of every
    key of the batch exactly one row goes into the merge, a row of the
    batch whose [effective_ts] is greatest among the rows of its key
    (NULL counting as least); and that row is the first row of its
    partition in every window order Spark may choose. *)
Theorem type1_merge_idempotent (t : DeltaTable) (source : DataFrame)
    (keys : list string) (effective_ts : string) (end_ts : option string)
    (w : Store) (loc : string) (tbl : Table) :
  location_in w t = Some loc →
  tables w !! loc = Some tbl →
  keys ≠ [] →
  (∀ r k, r ∈ source → k ∈ keys → col k r ≠ None) →
  (∀ p r, p ∈ source → r ∈ source → key_of keys p = key_of keys r →
     col effective_ts p = col effective_ts r →
     (∀ x, x ∈ source → key_of keys x = key_of keys p →
        cell_le (col effective_ts x) (col effective_ts p)) →
     p = r) →
  uncontended w →
  uncontended (with_conflicts (tail (conflicts w)) w) →
  ∃ w1 w2,
    scd t source keys effective_ts end_ts 1 w = (Ok t, w1)
    ∧ scd t source keys effective_ts end_ts 1 w1 = (Ok t, w2)
    ∧ rows_of w2 t = rows_of w1 t
    ∧ rows_of w1 t
        = Some (merge_rows upsert keys (scd1_payload keys effective_ts source)
                  (rows tbl))
    ∧ NoDup (key_of keys <$> scd1_payload keys effective_ts source)
    ∧ (∀ r, r ∈ source →
         ∃ p, p ∈ scd1_payload keys effective_ts source
              ∧ key_of keys p = key_of keys r)
    ∧ (∀ p, p ∈ scd1_payload keys effective_ts source →
         p ∈ source
         ∧ ∀ r, r ∈ source → key_of keys r = key_of keys p →
             cell_le (col effective_ts r) (col effective_ts p))
    ∧ (∀ k l,
         window_order (desc effective_ts)
           (filter (λ r, key_of keys r = k) source) l →
         first_row l
         = filter (λ p, key_of keys p = k) (scd1_payload keys effective_ts source)).
Proof.
  intros Hloc Htbl Hkeys Hnn Htop Hfree Hfree'.
  set (payload := scd1_payload keys effective_ts source).
  assert (NoDup (key_of keys <$> payload)) as Hnd
    by (unfold payload, scd1_payload; apply over_first_row_NoDup; apply _).
  assert (∀ p, p ∈ payload → p ∈ source ∧
            ∀ r, r ∈ source → key_of keys r = key_of keys p →
              cell_le (col effective_ts r) (col effective_ts p)) as Hmax.
  { intros p Hp. by apply (over_first_row_elem keys (desc effective_ts)) in Hp. }
  eexists _, _. unfold scd. rewrite !bool_decide_false, !bool_decide_true by done.
  split; [|split; [|split; [|split; [|split; [|split; [|split]]]]]].
  - apply _scd1_run with (loc := loc) (tbl := tbl); try done.
    by apply not_ambiguous.
  - apply _scd1_run with (loc := loc) (tbl := with_rows tbl
        (merge_rows upsert keys payload (rows tbl))); try done.
    + simpl. by rewrite lookup_insert_eq.
    + by apply not_ambiguous.
  - rewrite !rows_of_committed; try done.
    simpl. f_equal. apply upsert_idempotent; [done|].
    intros p k Hp Hk. apply Hnn; [|done]. by apply Hmax.
  - by rewrite rows_of_committed.
  - done.
  - intros r Hr. by apply (over_first_row_covers keys (desc effective_ts)).
  - done.
  - intros k l Hl. unfold payload, scd1_payload.
    rewrite over_first_row_of_key.
    apply (window_order_first (desc effective_ts)); [|done].
    intros p r Hp Hr Hpmax Hrmax.
    apply list_elem_of_filter in Hp as [Hkp Hp].
    apply list_elem_of_filter in Hr as [Hkr Hr].
    apply Htop; [done|done|congruence| |].
    + apply cell_le_antisym.
      * apply (Hrmax p). by apply list_elem_of_filter.
      * apply (Hpmax r). by apply list_elem_of_filter.
    + intros x Hx Hkx. apply (Hpmax x). apply list_elem_of_filter.
      split; [congruence|done].
Qed.

Lemma type1_merge_idempotent_witness :
  let source : DataFrame :=
    [ {[ "id" := 1; "ts" := 1; "val" := 10 ]}; {[ "id" := 1; "ts" := 2; "val" := 20 ]} ] in
  ∃ w1 w2,
    scd (forPath "/tables/dim") source ["id"] "ts" None 1 unique_store
      = (Ok (forPath "/tables/dim"), w1)
    ∧ scd (forPath "/tables/dim") source ["id"] "ts" None 1 w1
      = (Ok (forPath "/tables/dim"), w2)
    ∧ rows_of w2 (forPath "/tables/dim") = rows_of w1 (forPath "/tables/dim")
    ∧ rows_of w1 (forPath "/tables/dim")
        = Some (merge_rows upsert ["id"] (scd1_payload ["id"] "ts" source)
                  (rows unique_table))
    ∧ NoDup (key_of ["id"] <$> scd1_payload ["id"] "ts" source)
    ∧ (∀ r, r ∈ source →
         ∃ p, p ∈ scd1_payload ["id"] "ts" source
              ∧ key_of ["id"] p = key_of ["id"] r)
    ∧ (∀ p, p ∈ scd1_payload ["id"] "ts" source →
         p ∈ source
         ∧ ∀ r, r ∈ source → key_of ["id"] r = key_of ["id"] p →
             cell_le (col "ts" r) (col "ts" p))
    ∧ (∀ k l,
         window_order (desc "ts") (filter (λ r, key_of ["id"] r = k) source) l →
         first_row l
         = filter (λ p, key_of ["id"] p = k) (scd1_payload ["id"] "ts" source)).
Proof.
  intros source.
  apply (type1_merge_idempotent (forPath "/tables/dim") source ["id"] "ts" None
           unique_store "/tables/dim" unique_table).
  - reflexivity.
  - reflexivity.
  - discriminate.
  - intros r k Hr Hk. apply list_elem_of_singleton in Hk as ->.
    apply elem_of_cons in Hr as [->|Hr]; [discriminate|].
    apply list_elem_of_singleton in Hr as ->. discriminate.
  - intros p r Hp Hr _ Hts _.
    apply elem_of_cons in Hp as [->|Hp]; apply elem_of_cons in Hr as [->|Hr];
      try apply list_elem_of_singleton in Hp as ->;
      try apply list_elem_of_singleton in Hr as ->;
      try reflexivity; vm_compute in Hts; discriminate.
  - unfold uncontended. simpl. discriminate.
  - unfold uncontended. simpl. discriminate.
Defined.

(** ** Bootstrap and the type-2 merge into an empty table *)

(** C7, as the code has it. For a source in which no two rows of one key
    share an [effective_ts], [bootstrap_scd2] and a type-2 merge of the
    same batch into an empty table succeed and leave the same rows; and
    these are, for every key, the source rows of the key in window order
    (ascending [effective_ts], of which there is one), each with the
    [effective_ts] of the next row as its [end_ts], NULL for the last. *)
Theorem bootstrap_is_type2_on_empty (source : DataFrame) (keys : list string)
    (effective_ts end_ts : string)
    (table_properties : option (list (string * string)))
    (partition_columns : list string)
    (comment path table_identifier : option string) (w0 w1 : Store)
    (t : DeltaTable) :
  end_ts ≠ "" →
  end_ts ∉ keys →
  end_ts ≠ effective_ts →
  is_Some (provided path) ∨ is_Some (provided table_identifier) →
  rows_of w1 t = Some [] →
  uncontended w1 →
  NoDup ((λ r, (key_of keys r, col effective_ts r)) <$> source) →
  ∃ h w0' w1' written,
    bootstrap_scd2 source keys effective_ts end_ts table_properties
      partition_columns comment path table_identifier w0 = (Ok (Some h), w0')
    ∧ scd t source keys effective_ts (Some end_ts) 2 w1 = (Ok t, w1')
    ∧ rows_of w0' h = Some written
    ∧ rows_of w1' t = Some written
    ∧ ∀ k l,
        window_order (asc effective_ts)
          (filter (λ r, key_of keys r = k) source) l →
        filter (λ r, key_of keys r = k) written
        = lead_by_index effective_ts end_ts l.
Proof.
  intros Hend Hkeys Heff Hgiven Hrows Hfree Hnd.
  destruct (bootstrap_scd2_rows source keys effective_ts end_ts table_properties
              partition_columns comment path table_identifier w0 Hgiven)
    as (h & w0' & Hboot & Hrows0).
  unfold rows_of in Hrows.
  destruct (location_in w1 t) as [loc|] eqn:Hloc; [|done]. simpl in Hrows.
  destruct (tables w1 !! loc) as [tbl|] eqn:Htbl; [|done].
  simpl in Hrows. injection Hrows as Hrows.
  exists h, w0'. eexists.
  exists (bootstrap_payload keys effective_ts end_ts source).
  split; [done|]. split; [|split; [done|split]].
  - unfold scd. rewrite bool_decide_true by done.
    eapply _scd2_run; try done.
    + simpl. by rewrite bool_decide_false.
    + by rewrite Hrows.
  - rewrite rows_of_committed by done. rewrite Hrows.
    by rewrite merge_rows_upsert_empty.
  - intros k l Hl. unfold bootstrap_payload.
    rewrite lead_payload_of_key, lead_over_by_index by done.
    f_equal. symmetry. apply (window_order_unique (asc effective_ts)); [|done].
    intros x y Hx Hy Hxy Hyx.
    apply list_elem_of_filter in Hx as [Hkx Hx].
    apply list_elem_of_filter in Hy as [Hky Hy].
    apply (NoDup_fmap_eq (λ r, (key_of keys r, col effective_ts r)) source);
      try done.
    f_equal; [congruence|]. by apply cell_le_antisym.
Qed.

Lemma bootstrap_is_type2_on_empty_witness :
  ∃ h w0' w1' written,
    bootstrap_scd2 scenario_A_incoming ["id"] "ts" "end" None [] None
      (Some "/tables/dim") None described_store = (Ok (Some h), w0')
    ∧ scd (forPath "/tables/dim") scenario_A_incoming ["id"] "ts" (Some "end") 2
        described_store = (Ok (forPath "/tables/dim"), w1')
    ∧ rows_of w0' h = Some written
    ∧ rows_of w1' (forPath "/tables/dim") = Some written
    ∧ ∀ k l,
        window_order (asc "ts")
          (filter (λ r, key_of ["id"] r = k) scenario_A_incoming) l →
        filter (λ r, key_of ["id"] r = k) written = lead_by_index "ts" "end" l.
Proof.
  apply (bootstrap_is_type2_on_empty scenario_A_incoming ["id"] "ts" "end" None []
           None (Some "/tables/dim") None described_store described_store
           (forPath "/tables/dim")).
  - discriminate.
  - apply (bool_decide_unpack _). vm_compute. exact I.
  - discriminate.
  - left. simpl. by eexists.
  - reflexivity.
  - unfold uncontended. simpl. discriminate.
  - apply (bool_decide_unpack _). vm_compute. exact I.
Defined.

Definition tied_a : Row := {[ "id" := 1; "ts" := 5; "val" := 10 ]}.
Definition tied_b : Row := {[ "id" := 1; "ts" := 5; "val" := 20 ]}.

(** Two rows of one key that share their [effective_ts] may come in
    either order in the window, and the [end_ts] goes to the row that
    happens to come first: the batch does not determine the table.  The
    listing of the batch stands for the order Spark chooses; bootstrap of
    one listing and the type-2 merge of the other into an empty table
    leave different rows. *)
Lemma bootstrap_tied_rows_follow_the_order :
  let t := forPath "/tables/dim" in
  let boot := bootstrap_scd2 [tied_a; tied_b] ["id"] "ts" "end" None [] None
                (Some "/tables/dim") None described_store in
  let merged := scd t [tied_b; tied_a] ["id"] "ts" (Some "end") 2 described_store in
  [tied_a; tied_b] ≡ₚ [tied_b; tied_a]
  ∧ window_order (asc "ts") [tied_a; tied_b] [tied_a; tied_b]
  ∧ window_order (asc "ts") [tied_a; tied_b] [tied_b; tied_a]
  ∧ boot.1 = Ok (Some t)
  ∧ merged.1 = Ok t
  ∧ rows_of boot.2 t = Some [ <["end" := 5]> tied_a; tied_b ]
  ∧ rows_of merged.2 t = Some [ <["end" := 5]> tied_b; tied_a ]
  ∧ ¬ ([ <["end" := 5]> tied_a; tied_b ] ≡ₚ [ <["end" := 5]> tied_b; tied_a ]).
Proof.
  intros t boot merged.
  assert (asc "ts" tied_a tied_b) as Hab by (vm_compute; discriminate).
  assert (asc "ts" tied_b tied_a) as Hba by (vm_compute; discriminate).
  split; [apply Permutation_swap|].
  split; [split; [done|repeat constructor; done]|].
  split; [split; [apply Permutation_swap|repeat constructor; done]|].
  split; [vm_compute; reflexivity|]. split; [vm_compute; reflexivity|].
  split; [vm_compute; reflexivity|]. split; [vm_compute; reflexivity|].
  intros Hperm.
  assert (tied_b ∈ [ <["end" := 5]> tied_b; tied_a ]) as Hin
    by (rewrite <- Hperm; right; left).
  revert Hin. apply (bool_decide_unpack _). vm_compute. exact I.
Qed.

Lemma bind_singletons_length {A} (f : A → list A) (l : list A) :
  (∀ x, x ∈ l → length (f x) = 1%nat) → length (l ≫= f) = length l.
Proof.
  induction l as [|x l IH]; intros Hf; [done|].
  rewrite bind_cons, length_app, Hf by left. simpl. f_equal. apply IH.
  intros y Hy. apply Hf. by right.
Qed.

(** The rows an upsert leaves of the key of a payload row: every row the
    target had of the key is replaced by the payload row, which is
    inserted when the target had none. *)
Lemma upsert_key_length keys payload target p :
  NoDup (key_of keys <$> payload) →
  p ∈ payload →
  (∀ c, c ∈ keys → col c p ≠ None) →
  length (filter (λ r, key_of keys r = key_of keys p)
            (merge_rows upsert keys payload target))
  = Nat.max 1 (length (filter (λ r, key_of keys r = key_of keys p) target)).
Proof.
  intros Hnd Hp Hnn.
  assert (∀ t, key_of keys t = key_of keys p → on_columns keys p t = true) as Hmatch.
  { intros t Hkt. apply on_columns_same_key; [done|].
    intros c Hc. rewrite (key_of_col keys t p c) by done. by apply Hnn. }
  unfold merge_rows. simpl. rewrite filter_app, length_app.
  rewrite (filter_bind_same_key (key_of keys)).
  2:{ intros t x _. rewrite upsert_target_row.
      destruct (hits keys payload t) as [|s l] eqn:Hhits.
      - by intros ->%list_elem_of_singleton.
      - intros ->%list_elem_of_singleton.
        assert (s ∈ hits keys payload t) as Hs by (rewrite Hhits; left).
        apply list_elem_of_filter in Hs as [Hst _]. by apply on_columns_key_of. }
  rewrite bind_singletons_length.
  2:{ intros t Ht. apply list_elem_of_filter in Ht as [Hkt _].
      rewrite upsert_target_row, (hits_of_match keys payload Hnd p t); try done.
      by apply Hmatch. }
  unfold not_matched. rewrite filter_swap.
  rewrite (filter_unique (key_of keys) _ payload p); try done.
  rewrite filter_cons, filter_nil.
  destruct (filter (λ r, key_of keys r = key_of keys p) target) as [|t0 rest] eqn:Hf.
  - rewrite decide_True; [done|]. apply not_true_iff_false. intros Hex.
    apply existsb_exists in Hex as (t & Ht & Hpt). apply list_elem_of_In in Ht.
    assert (t ∈ filter (λ r, key_of keys r = key_of keys p) target) as Hin.
    { apply list_elem_of_filter. split; [|done].
      symmetry. by apply on_columns_key_of. }
    rewrite Hf in Hin. by apply not_elem_of_nil in Hin.
  - rewrite decide_False; [simpl; lia|].
    assert (t0 ∈ filter (λ r, key_of keys r = key_of keys p) target) as Hin
      by (rewrite Hf; left).
    apply list_elem_of_filter in Hin as [Hk0 Hin]. apply not_false_iff_true.
    apply existsb_exists. exists t0. split; [by apply list_elem_of_In|].
    by apply Hmatch.
Qed.

(** X9. A type-1 merge overwrites: after a merge of a batch without NULL in
    its key columns, every row the table holds for a key of the batch is
    the one row of the batch that went into the merge (a row of the
    greatest [effective_ts] of its key); the table holds as many rows of
    the key as it held before, and one when it held none; and the rows of
    the keys the batch does not mention are as they were. *)
Theorem type1_merge_overwrites (t : DeltaTable) (source : DataFrame)
    (keys : list string) (effective_ts : string) (end_ts : option string)
    (w w' : Store) (target : DataFrame) :
  Forall (λ b, Forall (λ c, col c b ≠ None) keys) source →
  rows_of w t = Some target →
  scd t source keys effective_ts end_ts 1 w = (Ok t, w') →
  ∃ merged, rows_of w' t = Some merged
    ∧ (∀ b, b ∈ source →
         ∃ p, p ∈ source ∧ p ∈ merged
           ∧ key_of keys p = key_of keys b
           ∧ cell_le (col effective_ts b) (col effective_ts p)
           ∧ (∀ x, x ∈ merged → key_of keys x = key_of keys b → x = p)
           ∧ length (filter (λ r, key_of keys r = key_of keys b) merged)
             = Nat.max 1 (length (filter (λ r, key_of keys r = key_of keys b)
                                    target)))
    ∧ ∀ k, k ∉ key_of keys <$> source →
        filter (λ r, key_of keys r = k) merged
        = filter (λ r, key_of keys r = k) target.
Proof.
  intros Hnn Hrows. unfold scd.
  rewrite bool_decide_false, bool_decide_true by done.
  intros Hrun. apply _scd1_Ok in Hrun as (loc & tbl & Hloc & Htbl & Hkeys & Hrows').
  rewrite (rows_of_Some w t loc tbl) in Hrows by done. injection Hrows as <-.
  set (payload := scd1_payload keys effective_ts source) in *.
  assert (NoDup (key_of keys <$> payload)) as Hnd
    by (unfold payload, scd1_payload; apply over_first_row_NoDup; apply _).
  assert (∀ p, p ∈ payload → p ∈ source ∧
            ∀ r, r ∈ source → key_of keys r = key_of keys p →
              cell_le (col effective_ts r) (col effective_ts p)) as Hmax.
  { intros p Hp. by apply (over_first_row_elem keys (desc effective_ts)) in Hp. }
  rewrite Forall_forall in Hnn.
  eexists. split; [done|]. split.
  - intros b Hb.
    destruct (over_first_row_covers keys (desc effective_ts) source b Hb)
      as (p & Hp & Hkp).
    fold (scd1_payload keys effective_ts source) in Hp. fold payload in Hp.
    destruct (Hmax p Hp) as [Hps Hpmax].
    assert (∀ c, c ∈ keys → col c p ≠ None) as Hpnn.
    { intros c Hc. specialize (Hnn p Hps). rewrite Forall_forall in Hnn.
      by apply Hnn. }
    exists p. split; [done|]. split; [by apply payload_in_upsert|].
    split; [done|]. split; [by apply Hpmax|]. split.
    + intros x Hx Hkx. apply upsert_elem in Hx as [Hx|[Hx Hhits]].
      * apply (NoDup_fmap_eq (key_of keys) payload); try done. congruence.
      * assert (p ∈ hits keys payload x) as Hin.
        { apply list_elem_of_filter. split; [|done].
          apply on_columns_same_key; [congruence|].
          intros c Hc. rewrite <- (key_of_col keys p x c) by (congruence || done).
          by apply Hpnn. }
        rewrite Hhits in Hin. by apply not_elem_of_nil in Hin.
    + rewrite <- Hkp. by apply upsert_key_length.
  - intros k Hk. apply upsert_other_key; [apply on_columns_key_of|].
    intros p Hp Hkp. apply Hk. rewrite <- Hkp.
    apply list_elem_of_fmap_2. by apply Hmax.
Qed.

Definition repeated_key_table : Table :=
  {| rows := [ {[ "id" := 1; "ts" := 0 ]}; {[ "id" := 7; "ts" := 0 ]};
               {[ "id" := 1; "ts" := 0; "val" := 5 ]} ];
     info := info described_table |}.

Definition repeated_key_store : Store :=
  {| tables := {[ "/tables/dim" := repeated_key_table ]};
     catalog := ∅;
     engine_info := engine_info described_store;
     conflicts := []; calls := [] |}.

Lemma type1_merge_overwrites_witness :
  let source : DataFrame :=
    [ {[ "id" := 1; "ts" := 1; "val" := 10 ]}; {[ "id" := 1; "ts" := 2; "val" := 20 ]} ] in
  ∃ merged,
    rows_of (scd (forPath "/tables/dim") source ["id"] "ts" None 1
               repeated_key_store).2
      (forPath "/tables/dim") = Some merged
    ∧ (∀ b, b ∈ source →
         ∃ p, p ∈ source ∧ p ∈ merged
           ∧ key_of ["id"] p = key_of ["id"] b
           ∧ cell_le (col "ts" b) (col "ts" p)
           ∧ (∀ x, x ∈ merged → key_of ["id"] x = key_of ["id"] b → x = p)
           ∧ length (filter (λ r, key_of ["id"] r = key_of ["id"] b) merged)
             = Nat.max 1 (length (filter (λ r, key_of ["id"] r = key_of ["id"] b)
                                    (rows repeated_key_table))))
    ∧ ∀ k, k ∉ key_of ["id"] <$> source →
        filter (λ r, key_of ["id"] r = k) merged
        = filter (λ r, key_of ["id"] r = k) (rows repeated_key_table).
Proof.
  intros source.
  apply (type1_merge_overwrites (forPath "/tables/dim") source ["id"] "ts" None
           repeated_key_store).
  - apply (bool_decide_unpack _). vm_compute. exact I.
  - reflexivity.
  - vm_compute. reflexivity.
Defined.
